(** * absces photo tools: canvas centering and thumbnail maintenance

    A shallow embedding of [center_image_batch.py] and
    [create_thumbnails.py].

    - Python [int] is [Z]; [//] is floor division ([Z.div]).
    - Python [float] and [np.float64] are IEEE-754 binary64, embedded with
      the executable specification [SpecFloat] (precision 53, emax 1024).
    - A PIL image is a record with its [mode], its [size] (width, height)
      and, for mode RGB, the raster [np.array] yields: rows of 8-bit
      triples.  [Image.convert] belongs to the codec and stays abstract,
      and so do [Image.resize] and [Image.save]; the quarter turn
      [transpose(ROTATE_270)] is written out.
    - A [dict] is an association list in insertion order, as [max] over
      [dict.items()] depends on that order.
    - The photo folder is its listing: file names with the image each one
      decodes to, if it decodes at all. *)

From Stdlib Require Import ZArith List Bool String Ascii Lia Permutation.
From Stdlib Require Import Floats.SpecFloat.
Import ListNotations.
Open Scope Z_scope.

(* ================================================================= *)
(** ** Binary64 *)

Module Float64.

Definition prec : Z := 53.
Definition emax : Z := 1024.

Definition float : Type := spec_float.

(** [float(n)] for an integer of magnitude below [2^53] (exact). *)
Definition of_Z (z : Z) : float := binary_normalize prec emax z 0 false.

Definition mul : float -> float -> float := SFmul prec emax.
Definition div : float -> float -> float := SFdiv prec emax.
Definition sub : float -> float -> float := SFsub prec emax.
Definition ltb : float -> float -> bool := SFltb.

Definition zero : float := S754_zero false.
Definition one : float := Eval vm_compute in of_Z 1.
Definition c255 : float := Eval vm_compute in of_Z 255.

(** The literal [0.2]: the double nearest to one fifth,
    [0x1.999999999999ap-3]. *)
Definition c0_2 : float := S754_finite false 7205759403792794 (-55).

(** Rounding toward zero to an integer; [0] stands in for NaN and the
    infinities, which have no integer part. *)
Definition trunc (x : float) : Z :=
  match x with
  | S754_finite s m e =>
      let a := if 0 <=? e then Z.shiftl (Zpos m) e
               else Z.shiftr (Zpos m) (- e) in
      if s then - a else a
  | _ => 0
  end.

Definition is_finite (x : float) : bool :=
  match x with
  | S754_finite _ _ _ | S754_zero _ => true
  | _ => false
  end.

Definition fmax (a b : float) : float := if ltb a b then b else a.
Definition fmin (a b : float) : float := if ltb b a then b else a.

End Float64.

Import Float64.

(* ================================================================= *)
(** ** Python helpers *)

(** [int(x)] of a float: raises on NaN and on the infinities. *)
Definition py_int (x : float) : option Z :=
  if is_finite x then Some (trunc x) else None.

(** [s.endswith(suffix)]. *)
Definition endswith (s suffix : string) : bool :=
  let n := String.length s in
  let m := String.length suffix in
  (m <=? n)%nat && String.eqb (substring (n - m) m s) suffix.

(** [s.endswith((a, b, ...))]. *)
Definition endswith_any (s : string) (suffixes : list string) : bool :=
  existsb (endswith s) suffixes.

(** [max(items, key=...)]: the first item whose key is not exceeded,
    [None] standing for the [ValueError] on an empty sequence. *)
Definition py_max {A : Type} (key : A -> Z) (items : list A) : option A :=
  match items with
  | [] => None
  | x :: rest =>
      Some (fold_left (fun best y => if key best <? key y then y else best)
                      rest x)
  end.

(** Dictionaries keyed by [(width, height)], in insertion order. *)
Definition Dimensions : Type := Z * Z.

Definition dim_eqb (a b : Dimensions) : bool :=
  (fst a =? fst b) && (snd a =? snd b).

Definition dict : Type := list (Dimensions * Z).

(** [d.get(k, default)]. *)
Fixpoint dict_get (d : dict) (k : Dimensions) (default : Z) : Z :=
  match d with
  | [] => default
  | (k', v) :: rest => if dim_eqb k' k then v else dict_get rest k default
  end.

(** [d[k] = v]: an existing key keeps its position, a new one goes last. *)
Fixpoint dict_set (d : dict) (k : Dimensions) (v : Z) : dict :=
  match d with
  | [] => [(k, v)]
  | (k', v') :: rest =>
      if dim_eqb k' k then (k', v) :: rest else (k', v') :: dict_set rest k v
  end.

(* ================================================================= *)
(** ** Images and arrays *)

Inductive channel : Type := Ch0 | Ch1 | Ch2.

(** [range(3)]. *)
Definition range3 : list channel := [Ch0; Ch1; Ch2].

Section Arrays.
Context {T : Type}.

Definition pixel : Type := (T * T * T)%type.

(** An array of shape [(H, W, 3)]. *)
Definition ndarray : Type := list (list pixel).

Definition chan (c : channel) (p : pixel) : T :=
  let '(r, g, b) := p in
  match c with Ch0 => r | Ch1 => g | Ch2 => b end.

Definition set_chan (c : channel) (v : T) (p : pixel) : pixel :=
  let '(r, g, b) := p in
  match c with Ch0 => (v, g, b) | Ch1 => (r, v, b) | Ch2 => (r, g, v) end.

(** [a[:, :, c]]. *)
Definition slice (c : channel) (a : ndarray) : list (list T) :=
  map (map (chan c)) a.

(** [a[:, :, c] = v] for [v] of shape [(H, W)]. *)
Fixpoint assign_row (c : channel) (v : list T) (row : list pixel)
  : list pixel :=
  match v, row with
  | x :: v', p :: row' => set_chan c x p :: assign_row c v' row'
  | _, _ => row
  end.

Fixpoint assign (c : channel) (v : list (list T)) (a : ndarray) : ndarray :=
  match v, a with
  | vr :: v', row :: a' => assign_row c vr row :: assign c v' a'
  | _, _ => a
  end.

(** [a.shape[:2]]. *)
Definition shape (a : ndarray) : nat * nat :=
  (List.length a, List.length (hd [] a)).

End Arrays.

Arguments pixel : clear implicits.
Arguments ndarray : clear implicits.

(** Element-wise operations on two-dimensional arrays. *)
Definition map2d {A B : Type} (f : A -> B) (a : list (list A))
  : list (list B) := map (map f) a.

Definition map_pixel {A B : Type} (f : A -> B) (p : pixel A) : pixel B :=
  let '(r, g, b) := p in (f r, f g, f b).

(** [a.astype(np.float64)]. *)
Definition astype_float64 (a : ndarray Z) : ndarray float :=
  map2d (map_pixel of_Z) a.

(** [np.max(a)] and [np.min(a)]; [None] is the [ValueError] numpy raises
    on an array without elements. *)
Definition np_max (a : list (list float)) : option float :=
  match List.concat a with
  | [] => None
  | x :: rest => Some (fold_left fmax rest x)
  end.

Definition np_min (a : list (list float)) : option float :=
  match List.concat a with
  | [] => None
  | x :: rest => Some (fold_left fmin rest x)
  end.

(** [np.clip(x, 0, 255)] on one element. *)
Definition clip (x : float) : float :=
  if ltb x zero then zero else if ltb c255 x then c255 else x.

(** [np.uint8(x)] on one element: the fractional part is dropped. *)
Definition to_uint8 (x : float) : Z := trunc x mod 256.

(** [a[:, :, c] *= s]. *)
Definition imul (c : channel) (s : float) (a : ndarray float)
  : ndarray float :=
  map2d (fun p => set_chan c (mul (chan c p) s) p) a.

Record Image : Type := mkImage {
  mode : string;
  size : Dimensions;
  pixels : ndarray Z
}.

(** [np.array(image)]. *)
Definition np_array (image : Image) : ndarray Z := pixels image.

(** [Image.fromarray(a)] for an 8-bit array of shape [(H, W, 3)]. *)
Definition fromarray (a : ndarray Z) : Image :=
  let '(h, w) := shape a in
  {| mode := "RGB"%string; size := (Z.of_nat w, Z.of_nat h); pixels := a |}.

(** [Image.new('RGB', size, color)]. *)
Definition Image_new (sz : Dimensions) (color : pixel Z) : Image :=
  {| mode := "RGB"%string; size := sz;
     pixels := repeat (repeat color (Z.to_nat (fst sz))) (Z.to_nat (snd sz)) |}.

(** The pixel at column [x], row [y], if inside the raster. *)
Definition getpixel (a : ndarray Z) (x y : Z) : option (pixel Z) :=
  if (x <? 0) || (y <? 0) then None
  else match nth_error a (Z.to_nat y) with
       | Some row => nth_error row (Z.to_nat x)
       | None => None
       end.

Fixpoint mapi_from {A B : Type} (f : Z -> A -> B) (i : Z) (l : list A)
  : list B :=
  match l with
  | [] => []
  | x :: l' => f i x :: mapi_from f (i + 1) l'
  end.

(** [canvas.paste(src, (x, y))]: the part of [src] that falls on the
    canvas replaces what was there; the rest of [src] is cut off. *)
Definition paste (canvas src : Image) (box : Z * Z) : Image :=
  let '(x0, y0) := box in
  {| mode := mode canvas; size := size canvas;
     pixels :=
       mapi_from (fun y row =>
         mapi_from (fun x p =>
           match getpixel (pixels src) (x - x0) (y - y0) with
           | Some q => q
           | None => p
           end) 0 row) 0 (pixels canvas) |}.

(* ================================================================= *)
(** ** center_image_batch.py *)

(** What [Image.open] finds behind a file name: an image, or nothing it
    can decode (it raises). *)
Definition Folder : Type := list (string * option Image).

Inductive result (A : Type) : Type :=
| Returns (a : A)
| Raises.
Arguments Returns {A} a.
Arguments Raises {A}.

(** How a run of the script ends: [sys.exit(code)], falling off the end of
    [main], or an exception nobody catches. *)
Inductive outcome : Type :=
| Exit (code : Z)
| Completed
| Uncaught.

(** The exit status the interpreter reports for each. *)
Definition exit_status (o : outcome) : Z :=
  match o with
  | Exit code => code
  | Completed => 0
  | Uncaught => 1
  end.

(** The test on the file name in the scan of [get_portrait_canvas_size]. *)
Definition is_reference_name (filename : string) : bool :=
  endswith_any filename [".jpg"; ".jpeg"; ".png"]%string
  && negb (endswith filename "_centered.jpg"%string).

(** [sizes[size] = sizes.get(size, 0) + 1]. *)
Definition count_size (sizes : dict) (sz : Dimensions) : dict :=
  dict_set sizes sz (dict_get sizes sz 0 + 1).

(** The scan loop: the tally of sizes over the folder. *)
Definition scan_sizes (photos : Folder) : dict :=
  fold_left
    (fun sizes entry =>
       let '(filename, file) := entry in
       if is_reference_name filename then
         match file with
         | Some img => count_size sizes (size img)
         | None => sizes
         end
       else sizes)
    photos [].

Definition get_portrait_canvas_size (photos : Folder) : option Dimensions :=
  let sizes := scan_sizes photos in
  match sizes with
  | [] => None
  | _ =>
      match py_max snd sizes with
      | None => None
      | Some item =>
          let most_common := fst item in
          let most_common :=
            if fst most_common >? snd most_common
            then (snd most_common, fst most_common)
            else most_common in
          Some most_common
      end
  end.

(** [os.path.exists] and [Image.open] on a name of the folder. *)
Fixpoint find_file (photos : Folder) (name : string) : option (option Image) :=
  match photos with
  | [] => None
  | (n, f) :: rest => if String.eqb n name then Some f else find_file rest name
  end.

(** [s.rfind(c)], counted from position [i] of the whole string. *)
Fixpoint rfind_from (c : ascii) (s : string) (i : Z) : Z :=
  match s with
  | EmptyString => -1
  | String a s' =>
      let r := rfind_from c s' (i + 1) in
      if 0 <=? r then r else if Ascii.eqb a c then i else -1
  end.

Definition rfind (c : ascii) (s : string) : Z := rfind_from c s 0.

(** [os.path.splitext(p)[0]] (the [ntpath] flavour: both separators). *)
Definition splitext_root (p : string) : string :=
  let sepIndex := Z.max (rfind "\"%char p) (rfind "/"%char p) in
  let dotIndex := rfind "."%char p in
  if sepIndex <? dotIndex then
    let first := Z.to_nat (sepIndex + 1) in
    let stem := substring first (Z.to_nat dotIndex - first) p in
    if existsb (fun a => negb (Ascii.eqb a "."%char))
               (list_ascii_of_string stem)
    then substring 0 (Z.to_nat dotIndex) p
    else p
  else p.

(** The two offset lines of [center_image_on_canvas]. *)
Definition center_offset (canvas_size target_size : Dimensions) : Z * Z :=
  let '(canvas_width, canvas_height) := canvas_size in
  let '(target_width, target_height) := target_size in
  let x_offset := (canvas_width - target_width) / 2 in
  let y_offset := (canvas_height - target_height) / 2 in
  (x_offset, y_offset).

Definition white : pixel Z := (255, 255, 255).

(** Returns the output file name together with the canvas saved under it. *)
Definition center_image_on_canvas (photos : Folder) (target_filename : string)
    (canvas_size : Dimensions) : result (option (string * Image)) :=
  match find_file photos target_filename with
  | None => Returns None
  | Some None => Raises
  | Some (Some target_img) =>
      let output_filename :=
        (splitext_root target_filename ++ "_centered.jpg")%string in
      let canvas := Image_new canvas_size white in
      let canvas :=
        paste canvas target_img (center_offset canvas_size (size target_img)) in
      Returns (Some (output_filename, canvas))
  end.

(** [main], with [sys.argv] and the folder as inputs. *)
Definition main (argv : list string) (photos : Folder) : outcome :=
  if (List.length argv <? 2)%nat then Exit 1
  else
    let target_filename := nth 1 argv ""%string in
    match get_portrait_canvas_size photos with
    | None => Exit 1
    | Some canvas_size =>
        match center_image_on_canvas photos target_filename canvas_size with
        | Raises => Uncaught
        | Returns None => Exit 1
        | Returns (Some (output_filename, _)) =>
            if String.eqb output_filename ""%string then Exit 1 else Completed
        end
    end.

(* ================================================================= *)
(** ** create_thumbnails.py *)

Definition needs_rotation (img : Image) : bool :=
  let '(width, height) := size img in
  (width =? 4000) && (width >? height).

Section Filters.

(** [image.convert(mode)], provided by the imaging library. *)
Variable convert : Image -> string -> Image.

Definition as_rgb (image : Image) : Image :=
  if negb (String.eqb (mode image) "RGB"%string) then convert image "RGB"%string
  else image.

Definition apply_white_patch_white_balance (image : Image) : option Image :=
  let image := as_rgb image in
  let img_array := astype_float64 (np_array image) in
  match np_max (slice Ch0 img_array),
        np_max (slice Ch1 img_array),
        np_max (slice Ch2 img_array) with
  | Some max_r, Some max_g, Some max_b =>
      let scale_r := if ltb zero max_r then div c255 max_r else one in
      let scale_g := if ltb zero max_g then div c255 max_g else one in
      let scale_b := if ltb zero max_b then div c255 max_b else one in
      let balanced := img_array in
      let balanced := imul Ch0 scale_r balanced in
      let balanced := imul Ch1 scale_g balanced in
      let balanced := imul Ch2 scale_b balanced in
      let balanced := map2d (map_pixel clip) balanced in
      Some (fromarray (map2d (map_pixel to_uint8) balanced))
  | _, _, _ => None
  end.

(** One turn of the loop over the channels; [None] once numpy raised. *)
Definition auto_levels_step (img_array : ndarray float)
    (adjusted : option (ndarray float)) (c : channel)
  : option (ndarray float) :=
  match adjusted with
  | None => None
  | Some adjusted =>
      let channel_data := slice c img_array in
      match np_min channel_data, np_max channel_data with
      | Some min_val, Some max_val =>
          if ltb min_val max_val then
            Some (assign c
                    (map2d (fun v => div v (sub max_val min_val))
                       (map2d (fun v => mul v c255)
                          (map2d (fun v => sub v min_val) channel_data)))
                    adjusted)
          else Some adjusted
      | _, _ => None
      end
  end.

Definition apply_auto_levels (image : Image) : option Image :=
  let image := as_rgb image in
  let img_array := astype_float64 (np_array image) in
  let adjusted := img_array in
  match fold_left (auto_levels_step img_array) range3 (Some adjusted) with
  | Some adjusted =>
      let adjusted := map2d (map_pixel clip) adjusted in
      Some (fromarray (map2d (map_pixel to_uint8) adjusted))
  | None => None
  end.

End Filters.

(** [int(original_width * scale_factor)] and the same for the height, in
    [create_thumbnail]; [None] where [int] raises. *)
Definition thumbnail_size (original : Dimensions) (scale_factor : float)
  : option Dimensions :=
  let '(original_width, original_height) := original in
  match py_int (mul (of_Z original_width) scale_factor),
        py_int (mul (of_Z original_height) scale_factor) with
  | Some new_width, Some new_height => Some (new_width, new_height)
  | _, _ => None
  end.

(** The expected thumbnail size in [check_and_fix_thumbnails]. *)
Definition expected_thumb_size (original_size : Dimensions)
  : option Dimensions :=
  let '(original_width, original_height) := original_size in
  match py_int (mul (of_Z original_width) c0_2),
        py_int (mul (of_Z original_height) c0_2) with
  | Some expected_thumb_width, Some expected_thumb_height =>
      Some (expected_thumb_width, expected_thumb_height)
  | _, _ => None
  end.

(** The size test on an existing thumbnail. *)
Definition thumb_size_ok (thumb_size expected : Dimensions) : bool :=
  let '(thumb_width, thumb_height) := thumb_size in
  let '(expected_thumb_width, expected_thumb_height) := expected in
  (Z.abs (thumb_width - expected_thumb_width) <=? 1)
  && (Z.abs (thumb_height - expected_thumb_height) <=? 1).

(** [needs_creation] at the end of the decision in the loop body of
    [check_and_fix_thumbnails]; [thumb_size] is what [get_image_size]
    reports for the thumbnail, when there is one it can read. *)
Definition needs_creation (needs_rotate is_new_image : bool)
    (thumb_size : option Dimensions) (expected : Dimensions) : bool :=
  if needs_rotate then true
  else if is_new_image then true
  else match thumb_size with
       | Some ts => if thumb_size_ok ts expected then false else true
       | None => true
       end.

(* ================================================================= *)
(** ** Reference notions the properties are stated with *)

(** The sizes the scan of [get_portrait_canvas_size] tallies, in the
    order of the listing: one per file that passes the name test and
    decodes. *)
Definition reference_sizes (photos : Folder) : list Dimensions :=
  flat_map
    (fun entry : string * option Image =>
       if is_reference_name (fst entry) then
         match snd entry with
         | Some img => [size img]
         | None => []
         end
       else [])
    photos.

(** How often a size occurs in a sequence. *)
Definition occurrences (d : Dimensions) (l : list Dimensions) : Z :=
  Z.of_nat (List.length (filter (dim_eqb d) l)).

(** Portrait normalisation: the axes are swapped when width exceeds
    height. *)
Definition portrait (d : Dimensions) : Dimensions :=
  if fst d >? snd d then (snd d, fst d) else d.

(** The offsets as the specification words them: truncating division. *)
Definition center_offset_truncating (canvas_size target_size : Dimensions)
  : Z * Z :=
  (Z.quot (fst canvas_size - fst target_size) 2,
   Z.quot (snd canvas_size - snd target_size) 2).

Definition centerOnCanvas_truncating (source : Image) (canvas : Dimensions)
  : Image :=
  paste (Image_new canvas white) source
        (center_offset_truncating canvas (size source)).

(** A 3 x 2 source among two 2 x 2 references. *)
Definition wide_source : Image :=
  {| mode := "RGB"; size := (3, 2);
     pixels := [[(1, 1, 1); (2, 2, 2); (3, 3, 3)];
                [(4, 4, 4); (5, 5, 5); (6, 6, 6)]] |}.

Definition small_reference : Image :=
  {| mode := "RGB"; size := (2, 2);
     pixels := [[(9, 9, 9); (9, 9, 9)]; [(9, 9, 9); (9, 9, 9)]] |}.

Definition small_folder : Folder :=
  [("a.jpg"%string, Some small_reference);
   ("b.jpg"%string, Some small_reference);
   ("wide.jpg"%string, Some wide_source)].

(** The tally of a sequence of sizes, as the scan loop builds it. *)
Definition tally (l : list Dimensions) : dict := fold_left count_size l [].

(** The keys of a dictionary, in its order. *)
Definition keys (d : dict) : list Dimensions := map fst d.

(** The distinct sizes of a sequence, each at its first occurrence. *)
Fixpoint firsts (l : list Dimensions) : list Dimensions :=
  match l with
  | [] => []
  | x :: l' => x :: filter (fun y => negb (dim_eqb x y)) (firsts l')
  end.

(** [y] is not among the sizes [seen]. *)
Definition fresh (seen : list Dimensions) (y : Dimensions) : bool :=
  negb (existsb (dim_eqb y) seen).

(** [m] is the most frequent size of [l] and, among the sizes as frequent
    as it, the one met first: every size met before it is strictly less
    frequent. *)
Definition modal_first (l : list Dimensions) (m : Dimensions) : Prop :=
  (forall d, occurrences d l <= occurrences m l)
  /\ exists l1 l2,
       l = l1 ++ m :: l2
       /\ forall d, In d l1 -> occurrences d l < occurrences m l.

(** What [center_image_on_canvas] hands back for a target that decodes
    to [src]: a canvas of the requested size, white except where the
    source, moved by the floor-division offsets, covers it. *)
Definition centered_on (canvas_size : Dimensions) (src : Image)
    (r : result (option (string * Image))) : Prop :=
  exists name canvas,
    r = Returns (Some (name, canvas))
    /\ size canvas = canvas_size
    /\ mode canvas = "RGB"%string
    /\ forall x y,
         0 <= x < fst canvas_size -> 0 <= y < snd canvas_size ->
         getpixel (pixels canvas) x y =
         Some match getpixel (pixels src)
                      (x - (fst canvas_size - fst (size src)) / 2)
                      (y - (snd canvas_size - snd (size src)) / 2) with
              | Some q => q
              | None => white
              end.

(** Three references of sizes 800 x 600, 800 x 600 and 600 x 800. *)
Definition blank (w h : Z) : Image := Image_new (w, h) white.

Definition three_references : Folder :=
  [("p1.jpg"%string, Some (blank 800 600));
   ("p2.jpg"%string, Some (blank 800 600));
   ("p3.jpg"%string, Some (blank 600 800))].

(** *** The two filters *)

(** An 8-bit sample. *)
Definition in_range (v : Z) : Prop := 0 <= v <= 255.

Definition pixel_ok (p : pixel Z) : Prop :=
  in_range (chan Ch0 p) /\ in_range (chan Ch1 p) /\ in_range (chan Ch2 p).

(** A raster of 8-bit samples with [snd sz] rows of [fst sz] pixels,
    neither being zero. *)
Definition raster_ok (a : ndarray Z) (sz : Dimensions) : Prop :=
  0 < fst sz /\ 0 < snd sz
  /\ List.length a = Z.to_nat (snd sz)
  /\ Forall (fun row => List.length row = Z.to_nat (fst sz)) a
  /\ Forall (Forall pixel_ok) a.

Definition rgb_ok (image : Image) : Prop :=
  mode image = "RGB"%string /\ raster_ok (pixels image) (size image).

(** An image as the decoder hands it over: not empty, and with its
    raster in place when its mode is RGB. *)
Definition valid_image (image : Image) : Prop :=
  0 < fst (size image) /\ 0 < snd (size image)
  /\ (mode image = "RGB"%string -> raster_ok (pixels image) (size image)).

(** What the imaging library promises of [convert('RGB')]: an RGB raster
    of the same size. *)
Definition converts_to_rgb (convert : Image -> string -> Image) : Prop :=
  forall image,
    0 < fst (size image) -> 0 < snd (size image) ->
    rgb_ok (convert image "RGB"%string)
    /\ size (convert image "RGB"%string) = size image.

(** Smallest and largest sample of a two-dimensional array. *)
Definition zmin2d (s : list (list Z)) : Z :=
  match List.concat s with
  | [] => 0
  | x :: rest => fold_left Z.min rest x
  end.

Definition zmax2d (s : list (list Z)) : Z :=
  match List.concat s with
  | [] => 0
  | x :: rest => fold_left Z.max rest x
  end.

(** The stretch of auto levels in exact integer arithmetic: the quotient
    rounded down, clipped to the 8-bit range; a flat channel is kept. *)
Definition stretch (lo hi v : Z) : Z :=
  if lo <? hi then Z.min 255 (Z.max 0 ((v - lo) * 255 / (hi - lo))) else v.

(** One sample through auto levels, as the script computes it in
    binary64, for a channel with extremes [lo] and [hi]: the value left
    in the array after the loop, then clipped and cut to 8 bits. *)
Definition levels_float (lo hi v : Z) : float :=
  if ltb (of_Z lo) (of_Z hi) then
    div (mul (sub (of_Z v) (of_Z lo)) c255) (sub (of_Z hi) (of_Z lo))
  else of_Z v.

Definition levels_sample (lo hi v : Z) : Z :=
  to_uint8 (clip (levels_float lo hi v)).

(** A pixel through [sample], channel by channel, each channel with the
    extremes of that channel of the raster [a]. *)
Definition levels_pixel (sample : Z -> Z -> Z -> Z) (a : ndarray Z)
    (p : pixel Z) : pixel Z :=
  (sample (zmin2d (slice Ch0 a)) (zmax2d (slice Ch0 a)) (chan Ch0 p),
   sample (zmin2d (slice Ch1 a)) (zmax2d (slice Ch1 a)) (chan Ch1 p),
   sample (zmin2d (slice Ch2 a)) (zmax2d (slice Ch2 a)) (chan Ch2 p)).

(** A two-dimensional array of 8-bit samples with at least one. *)
Definition samples_ok (s : list (list Z)) : Prop :=
  List.concat s <> [] /\ Forall in_range (List.concat s).

(** The gain of white patch for a channel whose largest sample is
    [maxC], and one sample through it, in binary64. *)
Definition gain (maxC : Z) : float :=
  if ltb zero (of_Z maxC) then div c255 (of_Z maxC) else one.

Definition white_patch_sample (maxC v : Z) : Z :=
  to_uint8 (clip (mul (of_Z v) (gain maxC))).

(** A pixel through white patch, each channel with the largest sample
    of that channel of the raster [a]. *)
Definition white_pixel (a : ndarray Z) (p : pixel Z) : pixel Z :=
  (white_patch_sample (zmax2d (slice Ch0 a)) (chan Ch0 p),
   white_patch_sample (zmax2d (slice Ch1 a)) (chan Ch1 p),
   white_patch_sample (zmax2d (slice Ch2 a)) (chan Ch2 p)).

(** The 8-bit values and their binary64 counterparts. *)
Definition bytes : list Z := map Z.of_nat (seq 0 256).

Definition byte_floats : list (Z * float) :=
  Eval vm_compute in map (fun v => (v, of_Z v)) bytes.

Definition float_eqb (x y : float) : bool :=
  match x, y with
  | S754_zero s, S754_zero s' => Bool.eqb s s'
  | S754_infinity s, S754_infinity s' => Bool.eqb s s'
  | S754_nan, S754_nan => true
  | S754_finite s m e, S754_finite s' m' e' =>
      Bool.eqb s s' && Pos.eqb m m' && Z.eqb e e'
  | _, _ => false
  end.

(** Tests on pairs of 8-bit values, each paired with its float: the
    order of the floats is the order of the integers; the difference is
    exact; so is the product with 255; an 8-bit value survives the
    round trip. *)
Definition ltb_agrees (p q : Z * float) : bool :=
  Bool.eqb (ltb (snd p) (snd q)) (fst p <? fst q).

Definition sub_exact (p q : Z * float) : bool :=
  if fst q <=? fst p then
    float_eqb (sub (snd p) (snd q))
              (nth (Z.to_nat (fst p - fst q)) (map snd byte_floats) zero)
  else true.

Definition mul255_exact (p : Z * float) : bool :=
  float_eqb (mul (snd p) c255) (of_Z (fst p * 255)).

Definition round_trip (p : Z * float) : bool :=
  to_uint8 (clip (snd p)) =? fst p.

(** The uniform values white patch leaves one short of 255. *)
Definition short_of_white : list Z :=
  [25; 29; 50; 53; 58; 91; 93; 100; 103; 105; 106; 116; 117; 121; 182; 185;
   186; 187; 191; 200; 203; 206; 207; 210; 212; 217; 221; 232; 233; 234;
   235; 242].

Definition white_or_short (v : Z) : bool :=
  if 0 <? v then
    white_patch_sample v v
    =? (if existsb (Z.eqb v) short_of_white then 254 else 255)
  else true.

(** A one-pixel grey image. *)
Definition grey (v : Z) : Image :=
  {| mode := "RGB"; size := (1, 1); pixels := [[(v, v, v)]] |}.

(** A stand-in for [convert]: an RGB image of the same size, mid-grey
    all over. *)
Definition grey_convert (image : Image) (m : string) : Image :=
  Image_new (size image) (128, 128, 128).

(** A 2 x 2 image with a flat green channel. *)
Definition sample_image : Image :=
  {| mode := "RGB"; size := (2, 2);
     pixels := [[(10, 20, 30); (40, 20, 90)]; [(0, 20, 255); (255, 20, 7)]] |}.

(** *** Thumbnail sizes *)

(** The thumbnail size as the specification words it, for the scale
    [num / den] taken as an exact rational: each axis times the scale,
    rounded down. *)
Definition expectedThumbSize (dim : Dimensions) (num den : Z) : Dimensions :=
  (fst dim * num / den, snd dim * num / den).

(** The exact value of a double, as a fraction. *)
Definition float_fraction (s : float) : Z * Z :=
  match s with
  | S754_finite sign m e =>
      let n := if sign then Zneg m else Zpos m in
      if e <? 0 then (n, 2 ^ (- e)) else (n * 2 ^ e, 1)
  | _ => (0, 1)
  end.

(** The literals [0.29] and [0.7]: the doubles nearest to 29/100 and to
    7/10. *)
Definition c0_29 : float := Eval vm_compute in div (of_Z 29) (of_Z 100).
Definition c0_7 : float := Eval vm_compute in div (of_Z 7) (of_Z 10).

(* ================================================================= *)
(** ** Further notions: the folder, the filters, the thumbnail run *)

(** *** Further notions for the centering script *)

(** [d] occurs strictly more often in [l] than any other size. *)
Definition strict_mode (l : list Dimensions) (d : Dimensions) : Prop :=
  forall d', d' <> d -> occurrences d' l < occurrences d l.

(** The name [center_image_on_canvas] gives its output for a target. *)
Definition centered_name (target_filename : string) : string :=
  (splitext_root target_filename ++ "_centered.jpg")%string.

(** A raster with [snd sz] rows of [fst sz] pixels. *)
Definition has_shape (a : ndarray Z) (sz : Dimensions) : Prop :=
  0 <= fst sz /\ 0 <= snd sz
  /\ List.length a = Z.to_nat (snd sz)
  /\ Forall (fun row => List.length row = Z.to_nat (fst sz)) a.

(** A folder like [three_references], listed the other way round. *)
Definition three_references_reversed : Folder := rev three_references.

(** A 2 x 2 source and the folder of it with two 4 x 4 references. *)
Definition small_source : Image :=
  {| mode := "RGB"; size := (2, 2);
     pixels := [[(1, 1, 1); (2, 2, 2)]; [(3, 3, 3); (4, 4, 4)]] |}.

Definition roomy_folder : Folder :=
  [("r1.png"%string, Some (blank 4 4));
   ("r2.png"%string, Some (blank 4 4));
   ("s.jpg"%string, Some small_source)].

(** *** Further notions for the two filters *)

(** The gains of white patch for the 8-bit maxima. *)
Definition gain_floats : list (Z * float) :=
  Eval vm_compute in map (fun m => (m, gain m)) bytes.

(** White patch next to exact arithmetic, for a channel maximum and a
    sample not above it: the result is not below the sample, and it is
    the exact quotient [v * 255 / maxC] rounded down, or one less. *)
Definition near_floor (mg p : Z * float) : bool :=
  if (0 <? fst mg) && (fst p <=? fst mg) then
    let out := to_uint8 (clip (mul (snd p) (snd mg))) in
    (fst p <=? out)
    && (fst p * 255 / fst mg - 1 <=? out)
    && (out <=? fst p * 255 / fst mg)
  else true.

(** White patch with the gains of a white and of a black channel. *)
Definition kept_by_white_patch (v : Z) : bool :=
  (white_patch_sample 255 v =? v) && (white_patch_sample 0 v =? v).

(** Every channel of the raster is flat or spans 0..255. *)
Definition levelled (a : ndarray Z) : Prop :=
  forall c,
    zmin2d (slice c a) = zmax2d (slice c a)
    \/ (zmin2d (slice c a) = 0 /\ zmax2d (slice c a) = 255).

(** Every channel of the raster is black or reaches 255. *)
Definition balanced (a : ndarray Z) : Prop :=
  forall c, zmax2d (slice c a) = 0 \/ zmax2d (slice c a) = 255.

(** A 2 x 2 image whose red channel spans 0..255, whose green channel is
    flat and whose blue channel is black. *)
Definition settled_image : Image :=
  {| mode := "RGB"; size := (2, 2);
     pixels := [[(0, 255, 0); (255, 255, 0)]; [(7, 255, 0); (90, 255, 0)]] |}.

(** *** create_thumbnails.py: rotation, [create_thumbnail] and the run *)

(** [s.lower()] on the bytes of a file name: the ASCII capitals change,
    which is all the suffix test can see. *)
Definition lower_ascii (a : ascii) : ascii :=
  let n := nat_of_ascii a in
  if (65 <=? n)%nat && (n <=? 90)%nat then ascii_of_nat (n + 32) else a.

Fixpoint lower (s : string) : string :=
  match s with
  | EmptyString => EmptyString
  | String a s' => String (lower_ascii a) (lower s')
  end.

(** [s.startswith(p)]. *)
Definition startswith (s p : string) : bool :=
  String.eqb (substring 0 (String.length p) s) p.

(** [sorted(names)]: ascending, stable. *)
Fixpoint insert_sorted (x : string) (l : list string) : list string :=
  match l with
  | [] => [x]
  | y :: l' => if String.leb x y then x :: l else y :: insert_sorted x l'
  end.

Definition sorted (l : list string) : list string :=
  fold_right insert_sorted [] l.

(** [os.path.exists] and a successful [Image.open] on a name of a
    directory. *)
Definition path_exists (dir : Folder) (name : string) : bool :=
  match find_file dir name with
  | Some _ => true
  | None => false
  end.

Definition Image_open (dir : Folder) (name : string) : option Image :=
  match find_file dir name with
  | Some (Some img) => Some img
  | _ => None
  end.

Definition get_image_size (dir : Folder) (name : string)
  : option Dimensions :=
  match Image_open dir name with
  | Some img => Some (size img)
  | None => None
  end.

(** [img.transpose(Image.Transpose.ROTATE_270)]: a quarter turn
    clockwise.  Row [x] of the result is column [x] of the image, read
    from the bottom up. *)
Definition column (x : nat) (a : ndarray Z) : list (pixel Z) :=
  map (fun row => nth x row (0, 0, 0)) a.

Definition transpose_rotate_270 (img : Image) : Image :=
  let '(width, height) := size img in
  {| mode := mode img; size := (height, width);
     pixels := map (fun x => rev (column x (pixels img)))
                   (seq 0 (Z.to_nat width)) |}.

(** What a call of [create_thumbnail] returns and what it has written:
    [rewritten] is the image saved over the original, [thumbnail] the
    one saved as the thumbnail. *)
Record thumbnail_result : Type := {
  success : bool;
  new_width : Z;
  new_height : Z;
  rewritten : option Image;
  thumbnail : option Image
}.

(** The [except] branch: [False, 0, 0], after whatever was written. *)
Definition thumbnail_failed (rewritten : option Image) : thumbnail_result :=
  {| success := false; new_width := 0; new_height := 0;
     rewritten := rewritten; thumbnail := None |}.

Section CreateThumbnail.

(** The imaging library: [image.convert(mode)];
    [img.resize(size, LANCZOS)], [None] when it raises; whether
    [image.save(path, ...)] goes through. *)
Variable convert : Image -> string -> Image.
Variable resize : Image -> Dimensions -> option Image.
Variable save : string -> Image -> bool.

(** The image as it stands before the size is computed, with
    [original_processing_done]; [None] when a filter raised. *)
Definition process (img : Image) (apply_white_balance : bool)
  : option (Image * bool) :=
  let original_processing_done := false in
  let img := as_rgb convert img in
  let '(img, original_processing_done) :=
    if needs_rotation img then (transpose_rotate_270 img, true)
    else (img, original_processing_done) in
  if apply_white_balance then
    match apply_white_patch_white_balance convert img with
    | Some img =>
        let original_processing_done := true in
        match apply_auto_levels convert img with
        | Some img => Some (img, original_processing_done)
        | None => None
        end
    | None => None
    end
  else Some (img, original_processing_done).

Definition create_thumbnail (dir : Folder) (input_path output_path : string)
    (scale_factor : float) (apply_white_balance : bool)
  : thumbnail_result :=
  match Image_open dir input_path with
  | None => thumbnail_failed None
  | Some img =>
      match process img apply_white_balance with
      | None => thumbnail_failed None
      | Some (img, original_processing_done) =>
          if original_processing_done && negb (save input_path img)
          then thumbnail_failed None
          else
            let rewritten :=
              if original_processing_done then Some img else None in
            match thumbnail_size (size img) scale_factor with
            | None => thumbnail_failed rewritten
            | Some (new_width, new_height) =>
                match resize img (new_width, new_height) with
                | None => thumbnail_failed rewritten
                | Some thumbnail =>
                    if save output_path thumbnail then
                      {| success := true; new_width := new_width;
                         new_height := new_height;
                         rewritten := rewritten;
                         thumbnail := Some thumbnail |}
                    else thumbnail_failed rewritten
                end
            end
      end
  end.

End CreateThumbnail.

(** The counters of [check_and_fix_thumbnails]. *)
Record counters : Type := {
  processed : Z;
  created : Z;
  fixed : Z;
  rotated : Z
}.

(** The test on the names of the listing. *)
Definition is_original_name (file : string) : bool :=
  endswith_any (lower file) [".jpg"; ".jpeg"; ".png"]%string
  && negb (startswith file "."%string).

(** The state of the loop: the counters, and the calls of
    [create_thumbnail] made so far, each with its file and its
    [apply_white_balance]. *)
Definition loop_state : Type := (counters * list (string * bool))%type.

(** One turn of the loop over the sorted names.  A turn reads and
    writes the files of its own name only, so every turn sees the other
    files as they were when the run began; [Raises] is [int] raising on
    a width or height beyond the doubles. *)
Definition check_image (photos thumbs : Folder) (st : loop_state)
    (image_file : string) : result loop_state :=
  let '(c, calls) := st in
  let is_new_image := negb (path_exists thumbs image_file) in
  match Image_open photos image_file with
  | None => Returns st
  | Some img =>
      let needs_rotate := needs_rotation img in
      match get_image_size photos image_file with
      | None => Returns st
      | Some original_size =>
          match expected_thumb_size original_size with
          | None => Raises
          | Some expected =>
              let '(c, needs_creation) :=
                if needs_rotate then
                  ({| processed := processed c; created := created c;
                      fixed := fixed c; rotated := rotated c + 1 |}, true)
                else if is_new_image then
                  ({| processed := processed c; created := created c + 1;
                      fixed := fixed c; rotated := rotated c |}, true)
                else if path_exists thumbs image_file then
                  match get_image_size thumbs image_file with
                  | Some thumb_size =>
                      if thumb_size_ok thumb_size expected then (c, false)
                      else
                        ({| processed := processed c; created := created c;
                            fixed := fixed c + 1; rotated := rotated c |},
                         true)
                  | None => (c, true)
                  end
                else (c, true) in
              let calls :=
                if needs_creation then calls ++ [(image_file, is_new_image)]
                else calls in
              Returns ({| processed := processed c + 1; created := created c;
                          fixed := fixed c; rotated := rotated c |}, calls)
          end
      end
  end.

Fixpoint check_loop (photos thumbs : Folder) (files : list string)
    (st : loop_state) : result loop_state :=
  match files with
  | [] => Returns st
  | image_file :: rest =>
      match check_image photos thumbs st image_file with
      | Returns st' => check_loop photos thumbs rest st'
      | Raises => Raises
      end
  end.

(** The names the loop goes through. *)
Definition original_images (photos : Folder) : list string :=
  filter is_original_name (map fst photos).

(** The figure of the last line of the summary. *)
Definition already_correct (c : counters) : Z :=
  if processed c - created c - fixed c - rotated c >=? 0
  then processed c - created c - fixed c - rotated c
  else 0.

(** The run: the counters and the last figure of the summary, with the
    calls of [create_thumbnail] it made; [Returns None] when there is
    no photos directory. *)
Definition check_and_fix_thumbnails (photos : option Folder)
    (thumbs : Folder) : result (option (counters * Z * list (string * bool))) :=
  match photos with
  | None => Returns None
  | Some photos =>
      let c := {| processed := 0; created := 0; fixed := 0; rotated := 0 |} in
      match check_loop photos thumbs (sorted (original_images photos))
                       (c, []) with
      | Returns (c, calls) => Returns (Some (c, already_correct c, calls))
      | Raises => Raises
      end
  end.

(** *** Notions for the thumbnail run *)

(** Every image of the folder has a width and a height below [2^31]. *)
Definition sizes_bounded (photos : Folder) : Prop :=
  forall name img,
    In (name, Some img) photos ->
    0 <= fst (size img) < 2 ^ 31 /\ 0 <= snd (size img) < 2 ^ 31.


(** The thumbnail of [image_file] can be read and has the size the run
    expects, give or take a pixel. *)
Definition good_thumb (photos thumbs : Folder) (image_file : string)
  : bool :=
  match get_image_size photos image_file, get_image_size thumbs image_file with
  | Some original_size, Some thumb_size =>
      match expected_thumb_size original_size with
      | Some expected => thumb_size_ok thumb_size expected
      | None => false
      end
  | _, _ => false
  end.

(** The file decodes to an image that needs no rotation. *)
Definition upright (photos : Folder) (image_file : string) : bool :=
  match Image_open photos image_file with
  | Some img => negb (needs_rotation img)
  | None => false
  end.

Definition count (test : string -> bool) (l : list string) : Z :=
  Z.of_nat (List.length (filter test l)).

(** How the run sorts a file of the listing: it decodes; it needs
    rotation; it is upright and has no thumbnail; it is upright and its
    thumbnail can be read but has the wrong size; it is upright and its
    thumbnail has the right size or cannot be read. *)
Definition decodes (photos : Folder) (image_file : string) : bool :=
  match Image_open photos image_file with
  | Some _ => true
  | None => false
  end.

Definition turned (photos : Folder) (image_file : string) : bool :=
  match Image_open photos image_file with
  | Some img => needs_rotation img
  | None => false
  end.

Definition newcomer (photos thumbs : Folder) (image_file : string) : bool :=
  upright photos image_file && negb (path_exists thumbs image_file).

Definition misfit (photos thumbs : Folder) (image_file : string) : bool :=
  upright photos image_file
  && match get_image_size thumbs image_file with
     | Some _ => negb (good_thumb photos thumbs image_file)
     | None => false
     end.


(** The file decodes and is not an upright one with a good thumbnail. *)
Definition wants_thumbnail (photos thumbs : Folder) (image_file : string)
  : bool :=
  decodes photos image_file
  && negb (upright photos image_file && good_thumb photos thumbs image_file).


Definition strict_resize (img : Image) (sz : Dimensions) : option Image :=
  if (fst sz <=? 0) || (snd sz <=? 0) then None
  else Some (Image_new sz white).

Definition always_saves (path : string) (img : Image) : bool := true.

(** A folder with one 2 x 2 photo, and a run's folders: a landscape
    photo 4000 wide (greyscale, its raster left out), a new photo, one
    with a good thumbnail, one with a thumbnail of the wrong size, one
    with a thumbnail that cannot be read, a file that is no image, and a
    hidden file. *)
Definition one_photo : Folder := [("a.jpg"%string, Some sample_image)].

Definition wide_photo : Image :=
  {| mode := "L"; size := (4000, 3000); pixels := [] |}.

Definition run_photos : Folder :=
  [("wide.JPG"%string, Some wide_photo);
   ("new.png"%string, Some (blank 10 20));
   ("good.jpg"%string, Some (blank 10 20));
   ("bad.jpg"%string, Some (blank 10 20));
   ("dim.jpeg"%string, Some (blank 10 20));
   ("notes.jpg"%string, None);
   (".hidden.jpg"%string, Some (blank 10 20));
   ("thumb"%string, None)].

Definition run_thumbs : Folder :=
  [("wide.JPG"%string, Some (blank 8 6));
   ("good.jpg"%string, Some (blank 3 4));
   ("bad.jpg"%string, Some (blank 5 5));
   ("dim.jpeg"%string, None)].

(* ================================================================= *)
(** * Properties *)

(** ** Rotation and thumbnail size tests *)

(** C5: [needs_rotation] holds exactly for width 4000 with width above
    height; it holds for 4000 x 3000, fails for 4000 x 4000 and for
    3000 x 4000, and fails for every square size. *)
Theorem needs_rotation_iff :
  (forall img,
      needs_rotation img = true <->
      fst (size img) = 4000 /\ fst (size img) > snd (size img))
  /\ (forall m px, needs_rotation (mkImage m (4000, 3000) px) = true)
  /\ (forall m px, needs_rotation (mkImage m (4000, 4000) px) = false)
  /\ (forall m px, needs_rotation (mkImage m (3000, 4000) px) = false)
  /\ (forall m n px, needs_rotation (mkImage m (n, n) px) = false).
Proof.
  split; [| repeat split].
  - intros img. unfold needs_rotation.
    destruct (size img) as [w h]; simpl.
    rewrite andb_true_iff, Z.eqb_eq, Z.gtb_gt. tauto.
  - intros m n px. unfold needs_rotation; simpl.
    apply andb_false_iff. right.
    rewrite Z.gtb_ltb. apply Z.ltb_irrefl.
Qed.

(** C8: the size test accepts a thumbnail exactly when each axis is
    within one pixel of the expected one; (201, 399) passes against
    (200, 400) and (210, 400) does not. *)
Theorem thumb_size_ok_iff :
  (forall tw th ew eh,
      thumb_size_ok (tw, th) (ew, eh) = true <->
      Z.abs (tw - ew) <= 1 /\ Z.abs (th - eh) <= 1)
  /\ thumb_size_ok (201, 399) (200, 400) = true
  /\ thumb_size_ok (210, 400) (200, 400) = false
  /\ (forall ts e,
         needs_creation false false (Some ts) e = negb (thumb_size_ok ts e)).
Proof.
  split; [| split; [reflexivity | split; [reflexivity |]]].
  - intros tw th ew eh. unfold thumb_size_ok.
    rewrite andb_true_iff, !Z.leb_le. tauto.
  - intros ts e. unfold needs_creation.
    now destruct (thumb_size_ok ts e).
Qed.

(** ** Lists, dictionaries and [max] *)

Lemma dim_eqb_eq (a b : Dimensions) : dim_eqb a b = true <-> a = b.
Proof.
  destruct a as [a1 a2], b as [b1 b2]. unfold dim_eqb; simpl.
  rewrite andb_true_iff, !Z.eqb_eq. split.
  - intros [-> ->]. reflexivity.
  - intros H. inversion H. auto.
Qed.

Lemma dim_eqb_refl (a : Dimensions) : dim_eqb a a = true.
Proof. now apply dim_eqb_eq. Qed.

Lemma dim_eqb_neq (a b : Dimensions) : dim_eqb a b = false <-> a <> b.
Proof.
  split.
  - intros H E. apply dim_eqb_eq in E. congruence.
  - intros H. destruct (dim_eqb a b) eqn:E; [| reflexivity].
    apply dim_eqb_eq in E. contradiction.
Qed.

Lemma dim_eqb_sym (a b : Dimensions) : dim_eqb a b = dim_eqb b a.
Proof.
  destruct (dim_eqb b a) eqn:E.
  - apply dim_eqb_eq in E. subst. apply dim_eqb_refl.
  - apply dim_eqb_neq in E. apply dim_eqb_neq. congruence.
Qed.

Lemma dict_get_set (d : dict) (k k' : Dimensions) (v def : Z) :
  dict_get (dict_set d k v) k' def =
  if dim_eqb k k' then v else dict_get d k' def.
Proof.
  induction d as [| [k0 v0] d IH]; simpl.
  - reflexivity.
  - destruct (dim_eqb k0 k) eqn:E0; simpl.
    + apply dim_eqb_eq in E0. subst k0.
      destruct (dim_eqb k k'); reflexivity.
    + destruct (dim_eqb k0 k') eqn:E1.
      * apply dim_eqb_eq in E1. subst k0.
        rewrite dim_eqb_sym, E0. reflexivity.
      * apply IH.
Qed.

Lemma occurrences_cons (d x : Dimensions) (l : list Dimensions) :
  occurrences d (x :: l) =
  (if dim_eqb x d then 1 else 0) + occurrences d l.
Proof.
  unfold occurrences; simpl. rewrite (dim_eqb_sym d x).
  destruct (dim_eqb x d); simpl List.length; lia.
Qed.

Lemma occurrences_nonneg (d : Dimensions) (l : list Dimensions) :
  0 <= occurrences d l.
Proof. unfold occurrences. lia. Qed.

(** The tally holds, for every size, how often it occurred. *)
Lemma fold_count_get (l : list Dimensions) (acc : dict) (k : Dimensions) :
  dict_get (fold_left count_size l acc) k 0 =
  dict_get acc k 0 + occurrences k l.
Proof.
  revert acc. induction l as [| x l IH]; intros acc; simpl.
  - unfold occurrences; simpl. lia.
  - rewrite IH, occurrences_cons. unfold count_size.
    rewrite dict_get_set.
    destruct (dim_eqb x k) eqn:E; [| lia].
    apply dim_eqb_eq in E. subst. lia.
Qed.

Lemma keys_dict_set (d : dict) (k : Dimensions) (v : Z) :
  keys (dict_set d k v) =
  if existsb (dim_eqb k) (keys d) then keys d else keys d ++ [k].
Proof.
  induction d as [| [k0 v0] d IH]; simpl.
  - reflexivity.
  - rewrite (dim_eqb_sym k k0).
    destruct (dim_eqb k0 k); simpl; [reflexivity |].
    rewrite IH. now destruct (existsb (dim_eqb k) (keys d)).
Qed.

Lemma filter_filter {A : Type} (f g : A -> bool) (l : list A) :
  filter f (filter g l) = filter (fun x => g x && f x) l.
Proof.
  induction l as [| x l IH]; simpl; [reflexivity |].
  destruct (g x); simpl; [destruct (f x) |]; now rewrite IH.
Qed.

(** The keys of the tally are the distinct sizes in order of first
    occurrence. *)
Lemma fold_count_keys (l : list Dimensions) (acc : dict) :
  keys (fold_left count_size l acc) =
  keys acc ++ filter (fresh (keys acc)) (firsts l).
Proof.
  revert acc. induction l as [| x l IH]; intros acc; simpl.
  - now rewrite app_nil_r.
  - rewrite IH. unfold count_size. rewrite keys_dict_set.
    rewrite filter_filter.
    destruct (existsb (dim_eqb x) (keys acc)) eqn:E.
    + unfold fresh at 2. rewrite E. simpl. f_equal.
      apply filter_ext_in. intros y _.
      destruct (dim_eqb x y) eqn:Exy; simpl; [| reflexivity].
      apply dim_eqb_eq in Exy. subst y.
      unfold fresh. now rewrite E.
    + unfold fresh at 2. rewrite E. simpl.
      rewrite <- app_assoc. simpl. do 2 f_equal.
      apply filter_ext_in. intros y _. unfold fresh.
      rewrite existsb_app. simpl. rewrite orb_false_r.
      rewrite negb_orb, (dim_eqb_sym y x). apply andb_comm.
Qed.

Lemma keys_tally (l : list Dimensions) : keys (tally l) = firsts l.
Proof.
  unfold tally. rewrite fold_count_keys. simpl.
  induction (firsts l) as [| y k IH]; simpl; [reflexivity |].
  now rewrite IH.
Qed.

Lemma get_tally (l : list Dimensions) (k : Dimensions) :
  dict_get (tally l) k 0 = occurrences k l.
Proof. unfold tally. now rewrite fold_count_get. Qed.

(** [max] returns the first of the items with the largest key: what
    precedes it is strictly smaller, what follows is not larger. *)
Lemma fold_max_first {A : Type} (key : A -> Z) (rest pre mid : list A)
    (b : A) :
  (forall y, In y pre -> key y < key b) ->
  (forall y, In y mid -> key y <= key b) ->
  exists a1 a2,
    pre ++ b :: mid ++ rest =
    a1 ++ fold_left (fun best y => if key best <? key y then y else best)
                    rest b :: a2
    /\ (forall y, In y a1 ->
          key y < key (fold_left
                         (fun best y => if key best <? key y then y else best)
                         rest b))
    /\ (forall y, In y a2 ->
          key y <= key (fold_left
                          (fun best y => if key best <? key y then y else best)
                          rest b)).
Proof.
  revert pre mid b. induction rest as [| y rest IH]; intros pre mid b Hpre Hmid.
  - exists pre, mid. simpl. rewrite app_nil_r. auto.
  - simpl. destruct (key b <? key y) eqn:E.
    + apply Z.ltb_lt in E.
      destruct (IH (pre ++ b :: mid) [] y) as (a1 & a2 & Heq & H1 & H2).
      * intros z Hz. apply in_app_or in Hz. destruct Hz as [Hz | [<- | Hz]].
        -- specialize (Hpre z Hz). lia.
        -- exact E.
        -- specialize (Hmid z Hz). lia.
      * intros z [].
      * exists a1, a2. split; [| auto].
        rewrite <- Heq. simpl. rewrite <- app_assoc. reflexivity.
    + apply Z.ltb_ge in E.
      destruct (IH pre (mid ++ [y]) b) as (a1 & a2 & Heq & H1 & H2).
      * exact Hpre.
      * intros z Hz. apply in_app_or in Hz. destruct Hz as [Hz | [<- | []]].
        -- auto.
        -- exact E.
      * exists a1, a2. split; [| auto].
        rewrite <- Heq. rewrite <- app_assoc. reflexivity.
Qed.

Lemma py_max_first {A : Type} (key : A -> Z) (items : list A) (x : A) :
  py_max key items = Some x ->
  exists a1 a2,
    items = a1 ++ x :: a2
    /\ (forall y, In y a1 -> key y < key x)
    /\ (forall y, In y a2 -> key y <= key x).
Proof.
  destruct items as [| b rest]; simpl; [discriminate |].
  intros H. injection H as <-.
  destruct (fold_max_first key rest [] [] b) as (a1 & a2 & Heq & H1 & H2).
  - intros y [].
  - intros y [].
  - exists a1, a2. auto.
Qed.

Lemma py_max_some {A : Type} (key : A -> Z) (items : list A) :
  items <> [] -> exists x, py_max key items = Some x.
Proof.
  destruct items as [| b rest]; [congruence |].
  intros _. simpl. eauto.
Qed.

(** Where a size stands among the first occurrences, it stands in the
    sequence after nothing but the sizes before it. *)
Lemma filter_split {A : Type} (f : A -> bool) (l a b : list A) (m : A) :
  filter f l = a ++ m :: b ->
  exists a' b',
    l = a' ++ m :: b' /\ filter f a' = a /\ filter f b' = b.
Proof.
  revert a. induction l as [| x l IH]; intros a H; simpl in H.
  - destruct a; discriminate.
  - destruct (f x) eqn:E.
    + destruct a as [| a0 a]; simpl in H.
      * injection H as -> Hb. exists [], l. simpl. auto.
      * injection H as -> H. destruct (IH a H) as (a' & b' & -> & Ha & Hb).
        exists (a0 :: a'), b'. simpl. rewrite E, Ha. auto.
    + destruct (IH a H) as (a' & b' & -> & Ha & Hb).
      exists (x :: a'), b'. simpl. rewrite E. auto.
Qed.

Lemma firsts_split (l k1 k2 : list Dimensions) (m : Dimensions) :
  firsts l = k1 ++ m :: k2 ->
  exists l1 l2, l = l1 ++ m :: l2 /\ forall d, In d l1 -> In d k1.
Proof.
  revert k1 k2. induction l as [| x l IH]; intros k1 k2 H; simpl in H.
  - destruct k1; discriminate.
  - destruct k1 as [| k0 k1]; simpl in H.
    + injection H as -> _. exists [], l. simpl. split; [reflexivity | tauto].
    + injection H as -> H.
      destruct (filter_split _ _ _ _ _ H) as (a' & b' & Hf & Ha & _).
      destruct (IH a' b' Hf) as (l1 & l2 & -> & Hin).
      exists (k0 :: l1), l2. split; [reflexivity |].
      intros d [<- | Hd]; [now left |].
      destruct (dim_eqb k0 d) eqn:E.
      * apply dim_eqb_eq in E. now left.
      * right. rewrite <- Ha. apply filter_In. split; [auto |].
        simpl. now rewrite E.
Qed.

Lemma firsts_In (l : list Dimensions) (d : Dimensions) :
  In d (firsts l) <-> In d l.
Proof.
  induction l as [| x l IH]; simpl; [tauto |].
  rewrite filter_In, IH. split.
  - tauto.
  - intros [-> | H]; [now left |].
    destruct (dim_eqb x d) eqn:E.
    + apply dim_eqb_eq in E. now left.
    + right. split; [exact H | reflexivity].
Qed.

Lemma firsts_NoDup (l : list Dimensions) : NoDup (firsts l).
Proof.
  induction l as [| x l IH]; simpl; constructor.
  - rewrite filter_In. intros [_ H]. now rewrite dim_eqb_refl in H.
  - now apply NoDup_filter.
Qed.

Lemma dict_get_In (d : dict) (k : Dimensions) (v def : Z) :
  NoDup (keys d) -> In (k, v) d -> dict_get d k def = v.
Proof.
  induction d as [| [k0 v0] d IH]; simpl; [tauto |].
  intros Hnd [H | H].
  - injection H as -> ->. now rewrite dim_eqb_refl.
  - inversion Hnd as [| ? ? Hnotin Hnd']; subst.
    destruct (dim_eqb k0 k) eqn:E.
    + apply dim_eqb_eq in E. subst k0. exfalso. apply Hnotin.
      unfold keys. change k with (fst (k, v)). now apply in_map.
    + now apply IH.
Qed.

Lemma tally_item (l : list Dimensions) (k : Dimensions) (v : Z) :
  In (k, v) (tally l) -> v = occurrences k l.
Proof.
  intros H. rewrite <- get_tally. symmetry. apply dict_get_In; [| exact H].
  rewrite keys_tally. apply firsts_NoDup.
Qed.

Lemma tally_nil (l : list Dimensions) : tally l = [] <-> l = [].
Proof.
  split; [| now intros ->].
  intros H. destruct l as [| x l]; [reflexivity |]. exfalso.
  assert (Hk : keys (tally (x :: l)) = firsts (x :: l)) by apply keys_tally.
  rewrite H in Hk. discriminate.
Qed.

Lemma scan_sizes_tally (photos : Folder) :
  scan_sizes photos = tally (reference_sizes photos).
Proof.
  unfold scan_sizes, tally. generalize (@nil (Dimensions * Z)) as acc.
  induction photos as [| [filename file] photos IH]; intros acc; simpl.
  - reflexivity.
  - rewrite fold_left_app, IH.
    destruct (is_reference_name filename); [| reflexivity].
    destruct file; reflexivity.
Qed.

(** The item [max] picks from the tally is the modal size met first. *)
Lemma py_max_tally (l : list Dimensions) (item : Dimensions * Z) :
  py_max snd (tally l) = Some item -> modal_first l (fst item).
Proof.
  intros H. destruct item as [m c]. simpl.
  destruct (py_max_first _ _ _ H) as (a1 & a2 & Heq & H1 & H2).
  simpl in H1, H2.
  assert (Hc : c = occurrences m l).
  { apply tally_item. rewrite Heq. apply in_or_app. right. now left. }
  assert (Hk : firsts l = keys a1 ++ m :: keys a2).
  { rewrite <- keys_tally, Heq. unfold keys. now rewrite map_app. }
  split.
  - intros d. destruct (in_dec (fun a b =>
        match Bool.bool_dec (dim_eqb a b) true with
        | left e => left (proj1 (dim_eqb_eq a b) e)
        | right n => right (fun e => n (proj2 (dim_eqb_eq a b) e))
        end) d (firsts l)) as [Hin | Hnot].
    + assert (Hv : In (d, occurrences d l) (tally l)).
      { rewrite <- keys_tally in Hin. unfold keys in Hin.
        apply in_map_iff in Hin. destruct Hin as ([d' v] & Hd & Hin).
        simpl in Hd. subst d'.
        now rewrite <- (tally_item _ _ _ Hin). }
      rewrite Heq in Hv. apply in_app_or in Hv.
      destruct Hv as [Hv | [Hv | Hv]].
      * specialize (H1 _ Hv). simpl in H1. lia.
      * injection Hv as -> _. lia.
      * specialize (H2 _ Hv). simpl in H2. lia.
    + assert (occurrences d l = 0).
      { destruct (Z.eq_dec (occurrences d l) 0) as [E | E]; [exact E |].
        exfalso. apply Hnot. apply firsts_In.
        unfold occurrences in E.
        destruct (filter (dim_eqb d) l) as [| y t] eqn:Ef; [simpl in E; lia |].
        assert (Hy : In y (filter (dim_eqb d) l)) by (rewrite Ef; now left).
        apply filter_In in Hy. destruct Hy as [Hy Hd].
        apply dim_eqb_eq in Hd. now subst. }
      pose proof (occurrences_nonneg m l). lia.
  - destruct (firsts_split _ _ _ _ Hk) as (l1 & l2 & Hl & Hin).
    exists l1, l2. split; [exact Hl |].
    intros d Hd. specialize (Hin d Hd). unfold keys in Hin.
    apply in_map_iff in Hin. destruct Hin as ([d' v] & Hd' & Hin).
    simpl in Hd'. subst d'.
    assert (Hv : v = occurrences d l).
    { apply tally_item. rewrite Heq. apply in_or_app. now left. }
    specialize (H1 _ Hin). simpl in H1. lia.
Qed.

(** ** The canonical canvas *)

Lemma get_portrait_canvas_size_eq (photos : Folder) :
  get_portrait_canvas_size photos =
  match py_max snd (tally (reference_sizes photos)) with
  | Some item => Some (portrait (fst item))
  | None => None
  end.
Proof.
  unfold get_portrait_canvas_size. rewrite scan_sizes_tally.
  destruct (tally (reference_sizes photos)) as [| i t]; reflexivity.
Qed.

Lemma portrait_le (d : Dimensions) : fst (portrait d) <= snd (portrait d).
Proof.
  unfold portrait. destruct (fst d >? snd d) eqn:E; simpl.
  - apply Z.gtb_gt in E. lia.
  - rewrite Z.gtb_ltb in E. apply Z.ltb_ge in E. exact E.
Qed.

(** C1: over a non-empty sequence of sizes the canvas is the most
    frequent size, the first one met among equally frequent ones, with
    its axes swapped when it is landscape, so that height >= width; the
    sizes (800,600), (800,600), (600,800) give (600,800). *)
Theorem canvas_is_portrait_mode (photos : Folder) :
  reference_sizes photos <> [] ->
  (exists m,
      modal_first (reference_sizes photos) m
      /\ get_portrait_canvas_size photos = Some (portrait m))
  /\ (forall d, get_portrait_canvas_size photos = Some d -> fst d <= snd d)
  /\ (reference_sizes photos = [(800, 600); (800, 600); (600, 800)] ->
      get_portrait_canvas_size photos = Some (600, 800)).
Proof.
  intros Hne. rewrite get_portrait_canvas_size_eq.
  assert (Ht : tally (reference_sizes photos) <> [])
    by (now rewrite tally_nil).
  destruct (py_max_some snd _ Ht) as [item Hitem]. rewrite Hitem.
  split; [| split].
  - exists (fst item). split; [now apply py_max_tally | reflexivity].
  - intros d H. injection H as <-. apply portrait_le.
  - intros Hl. rewrite Hl in Hitem. vm_compute in Hitem.
    injection Hitem as <-. reflexivity.
Qed.

Lemma canvas_is_portrait_mode_witness :
  reference_sizes three_references <> []
  /\ (exists m,
         modal_first (reference_sizes three_references) m
         /\ get_portrait_canvas_size three_references = Some (portrait m))
  /\ (forall d,
         get_portrait_canvas_size three_references = Some d ->
         fst d <= snd d)
  /\ (reference_sizes three_references
      = [(800, 600); (800, 600); (600, 800)] ->
      get_portrait_canvas_size three_references = Some (600, 800)).
Proof.
  assert (H : reference_sizes three_references <> [])
    by (lazy; discriminate).
  split; [exact H | exact (canvas_is_portrait_mode three_references H)].
Defined.

(** C9: no size comes back exactly when no file of the folder both
    passes the name test and decodes (an empty folder included), and
    then [main] leaves with exit status 1. *)
Theorem no_reference_aborts :
  (forall photos,
      get_portrait_canvas_size photos = None <-> reference_sizes photos = [])
  /\ (forall photos,
         reference_sizes photos = [] <->
         Forall (fun entry => is_reference_name (fst entry) = true ->
                              snd entry = None) photos)
  /\ (forall argv photos,
         get_portrait_canvas_size photos = None ->
         main argv photos = Exit 1 /\ exit_status (main argv photos) <> 0).
Proof.
  split; [| split].
  - intros photos. rewrite get_portrait_canvas_size_eq. split.
    + intros H.
      destruct (reference_sizes photos) as [| x l] eqn:E; [reflexivity |].
      exfalso.
      assert (Ht : tally (x :: l) <> []) by (rewrite tally_nil; discriminate).
      destruct (py_max_some snd _ Ht) as [item Hitem].
      rewrite Hitem in H. discriminate.
    + intros ->. reflexivity.
  - intros photos. unfold reference_sizes.
    induction photos as [| [filename file] photos IH]; simpl.
    + split; [constructor | reflexivity].
    + split.
      * intros H. apply app_eq_nil in H. destruct H as [H1 H2].
        constructor; [| now apply IH]. simpl.
        intros Hn. rewrite Hn in H1. now destruct file.
      * intros H. inversion H as [| ? ? Hhd Htl]; subst. simpl in Hhd.
        apply IH in Htl. rewrite Htl, app_nil_r.
        destruct (is_reference_name filename); [| reflexivity].
        now rewrite Hhd.
  - intros argv photos H. unfold main. rewrite H.
    destruct (List.length argv <? 2)%nat; simpl; split;
      (reflexivity || discriminate).
Qed.

(** ** Centering on the canvas *)

Lemma nth_error_mapi_from {A B : Type} (f : Z -> A -> B) (l : list A)
    (i : Z) (n : nat) :
  nth_error (mapi_from f i l) n =
  option_map (f (i + Z.of_nat n)) (nth_error l n).
Proof.
  revert i n. induction l as [| x l IH]; intros i n; simpl.
  - now destruct n.
  - destruct n as [| n]; simpl.
    + now rewrite Z.add_0_r.
    + rewrite IH. do 2 f_equal. lia.
Qed.

Lemma getpixel_paste (canvas src : Image) (x0 y0 x y : Z) :
  getpixel (pixels (paste canvas src (x0, y0))) x y =
  match getpixel (pixels canvas) x y with
  | Some p => Some match getpixel (pixels src) (x - x0) (y - y0) with
                   | Some q => q
                   | None => p
                   end
  | None => None
  end.
Proof.
  set (g := getpixel (pixels src)). unfold getpixel. simpl.
  destruct ((x <? 0) || (y <? 0)) eqn:E; [reflexivity |].
  apply orb_false_iff in E. destruct E as [Ex Ey].
  apply Z.ltb_ge in Ex, Ey.
  rewrite nth_error_mapi_from.
  destruct (nth_error (pixels canvas) (Z.to_nat y)) as [row |]; simpl;
    [| reflexivity].
  rewrite nth_error_mapi_from.
  destruct (nth_error row (Z.to_nat x)) as [p |]; simpl; [| reflexivity].
  rewrite !Z2Nat.id by assumption. reflexivity.
Qed.

Lemma getpixel_new (w h x y : Z) (c : pixel Z) :
  0 <= x < w -> 0 <= y < h ->
  getpixel (pixels (Image_new (w, h) c)) x y = Some c.
Proof.
  intros Hx Hy. unfold getpixel. simpl.
  replace ((x <? 0) || (y <? 0)) with false
    by (symmetry; apply orb_false_iff; split; apply Z.ltb_ge; lia).
  rewrite nth_error_repeat by lia.
  apply nth_error_repeat. lia.
Qed.

(** C6, with floor division in place of truncating division: the canvas
    has the requested size and is white except under the source, which
    lies at ((canvasW - srcW) // 2, (canvasH - srcH) // 2) whatever the
    two sizes are (what falls outside the canvas is cut off); the two
    divisions agree when the source fits, and a 500 x 700 source on an
    800 x 1000 canvas lies at (150, 150). *)
Theorem center_image_on_canvas_floor (photos : Folder)
    (target_filename : string) (canvas_size : Dimensions) (src : Image) :
  find_file photos target_filename = Some (Some src) ->
  centered_on canvas_size src
    (center_image_on_canvas photos target_filename canvas_size)
  /\ (fst (size src) <= fst canvas_size ->
      snd (size src) <= snd canvas_size ->
      center_offset canvas_size (size src) =
      center_offset_truncating canvas_size (size src))
  /\ center_offset (800, 1000) (500, 700) = (150, 150).
Proof.
  intros Hfind. split; [| split; [| reflexivity]].
  - unfold centered_on, center_image_on_canvas. rewrite Hfind.
    destruct canvas_size as [cw ch]. destruct (size src) as [sw sh] eqn:Es.
    eexists _, _. split; [reflexivity |].
    split; [reflexivity |]. split; [reflexivity |].
    intros x y Hx Hy. cbn [fst snd] in Hx, Hy |- *. unfold center_offset.
    rewrite getpixel_paste, getpixel_new by assumption. reflexivity.
  - intros Hw Hh. destruct canvas_size as [cw ch].
    destruct (size src) as [sw sh]. simpl in *.
    unfold center_offset_truncating; simpl.
    rewrite !Z.quot_div_nonneg by lia. reflexivity.
Qed.

Lemma center_image_on_canvas_floor_witness :
  find_file small_folder "wide.jpg" = Some (Some wide_source)
  /\ centered_on (2, 2) wide_source
       (center_image_on_canvas small_folder "wide.jpg" (2, 2))
  /\ (fst (size wide_source) <= fst (2, 2) ->
      snd (size wide_source) <= snd (2, 2) ->
      center_offset (2, 2) (size wide_source) =
      center_offset_truncating (2, 2) (size wide_source))
  /\ center_offset (800, 1000) (500, 700) = (150, 150).
Proof.
  split; [reflexivity |].
  exact (center_image_on_canvas_floor small_folder "wide.jpg" (2, 2)
           wide_source eq_refl).
Defined.

(** C6 as worded fails: with a source one pixel wider than the canvas
    the script pastes at x = -1, truncating division would paste at
    x = 0, and the two canvases differ. *)
Lemma center_offset_not_truncating :
  get_portrait_canvas_size small_folder = Some (2, 2)
  /\ center_offset (2, 2) (size wide_source) = (-1, 0)
  /\ center_offset_truncating (2, 2) (size wide_source) = (0, 0)
  /\ center_image_on_canvas small_folder "wide.jpg" (2, 2) =
     Returns (Some ("wide_centered.jpg"%string,
                    {| mode := "RGB"; size := (2, 2);
                       pixels := [[(2, 2, 2); (3, 3, 3)];
                                  [(5, 5, 5); (6, 6, 6)]] |}))
  /\ centerOnCanvas_truncating wide_source (2, 2) =
     {| mode := "RGB"; size := (2, 2);
        pixels := [[(1, 1, 1); (2, 2, 2)]; [(4, 4, 4); (5, 5, 5)]] |}
  /\ ~ (forall canvas_size target_size,
           center_offset canvas_size target_size =
           center_offset_truncating canvas_size target_size).
Proof.
  repeat split; try reflexivity.
  intros H. specialize (H (2, 2) (3, 2)). discriminate H.
Qed.

(** ** Binary64 on 8-bit values *)

Lemma byte_floats_eq : byte_floats = map (fun v => (v, of_Z v)) bytes.
Proof. vm_compute. reflexivity. Qed.

Lemma all_ltb_agrees :
  forallb (fun p => forallb (ltb_agrees p) byte_floats) byte_floats = true.
Proof. vm_compute. reflexivity. Qed.

Lemma all_sub_exact :
  forallb (fun p => forallb (sub_exact p) byte_floats) byte_floats = true.
Proof. vm_compute. reflexivity. Qed.

Lemma all_mul255_exact : forallb mul255_exact byte_floats = true.
Proof. vm_compute. reflexivity. Qed.

Lemma all_round_trip : forallb round_trip byte_floats = true.
Proof. vm_compute. reflexivity. Qed.

Lemma all_white_or_short : forallb white_or_short bytes = true.
Proof. vm_compute. reflexivity. Qed.

Lemma bytes_In (v : Z) : in_range v -> In v bytes.
Proof.
  intros [H0 H255]. unfold bytes. apply in_map_iff.
  exists (Z.to_nat v). split; [lia |]. apply in_seq. lia.
Qed.

Lemma byte_floats_In (v : Z) : in_range v -> In (v, of_Z v) byte_floats.
Proof.
  intros H. rewrite byte_floats_eq.
  apply (in_map (fun v => (v, of_Z v))). now apply bytes_In.
Qed.

Lemma float_eqb_eq (x y : float) : float_eqb x y = true -> x = y.
Proof.
  destruct x as [s | s | | s m e], y as [s' | s' | | s' m' e'];
    simpl; try discriminate; try reflexivity.
  - intros H. apply eqb_prop in H. now subst.
  - intros H. apply eqb_prop in H. now subst.
  - intros H. apply andb_true_iff in H. destruct H as [H He].
    apply andb_true_iff in H. destruct H as [Hs Hm].
    apply eqb_prop in Hs. apply Pos.eqb_eq in Hm. apply Z.eqb_eq in He.
    now subst.
Qed.

Lemma nth_byte_float (v : Z) :
  in_range v -> nth (Z.to_nat v) (map snd byte_floats) zero = of_Z v.
Proof.
  intros [H0 H255].
  assert (E : map snd byte_floats
              = map (fun n => of_Z (Z.of_nat n)) (seq 0 256))
    by (rewrite byte_floats_eq; unfold bytes; rewrite !map_map;
        reflexivity).
  pose proof (map_nth (fun n => of_Z (Z.of_nat n)) (seq 0 256) 0%nat
                (Z.to_nat v)) as Hn.
  cbv beta in Hn. rewrite seq_nth in Hn by lia.
  rewrite E. change zero with (of_Z (Z.of_nat 0)). rewrite Hn.
  f_equal. lia.
Qed.

(** From a test on all pairs to any two 8-bit values. *)
Lemma all_pairs (test : Z * float -> Z * float -> bool) (a b : Z) :
  forallb (fun p => forallb (test p) byte_floats) byte_floats = true ->
  in_range a -> in_range b -> test (a, of_Z a) (b, of_Z b) = true.
Proof.
  intros H Ha Hb. rewrite forallb_forall in H.
  specialize (H _ (byte_floats_In a Ha)). cbv beta in H.
  rewrite forallb_forall in H. exact (H _ (byte_floats_In b Hb)).
Qed.

(** The order of 8-bit values is kept by the conversion to binary64. *)
Lemma ltb_of_Z (a b : Z) :
  in_range a -> in_range b -> ltb (of_Z a) (of_Z b) = (a <? b).
Proof.
  intros Ha Hb. pose proof (all_pairs _ a b all_ltb_agrees Ha Hb) as H.
  unfold ltb_agrees in H. cbn [fst snd] in H. now apply eqb_prop in H.
Qed.

(** The difference of two 8-bit values is exact. *)
Lemma sub_of_Z (a b : Z) :
  in_range a -> in_range b -> b <= a ->
  sub (of_Z a) (of_Z b) = of_Z (a - b).
Proof.
  intros Ha Hb Hle. pose proof (all_pairs _ a b all_sub_exact Ha Hb) as H.
  unfold sub_exact in H. cbn [fst snd] in H.
  replace (b <=? a) with true in H by (symmetry; now apply Z.leb_le).
  apply float_eqb_eq in H. rewrite H. apply nth_byte_float.
  unfold in_range in *. lia.
Qed.

(** ** Rounding to binary64 *)

(** Closes equations on exponents that go through [fexp]. *)
Ltac fexp_lia := unfold fexp, emin, prec, emax; lia.

Lemma digits2_pos_bounds (p : positive) :
  2 ^ (Zpos (digits2_pos p) - 1) <= Zpos p < 2 ^ Zpos (digits2_pos p).
Proof.
  induction p as [p IH | p IH |]; cbn [digits2_pos].
  - rewrite Pos2Z.inj_succ. change (Zpos p~1) with (2 * Zpos p + 1).
    replace (Z.succ (Zpos (digits2_pos p)) - 1)
      with (Z.succ (Zpos (digits2_pos p) - 1)) by lia.
    rewrite !Z.pow_succ_r by lia. lia.
  - rewrite Pos2Z.inj_succ. change (Zpos p~0) with (2 * Zpos p).
    replace (Z.succ (Zpos (digits2_pos p)) - 1)
      with (Z.succ (Zpos (digits2_pos p) - 1)) by lia.
    rewrite !Z.pow_succ_r by lia. lia.
  - simpl. lia.
Qed.

Lemma digits2_pos_unique (p : positive) (k : Z) :
  2 ^ (k - 1) <= Zpos p < 2 ^ k -> Zpos (digits2_pos p) = k.
Proof.
  intros [Hlo Hhi]. pose proof (digits2_pos_bounds p) as [Dlo Dhi].
  assert (Hk : 0 < k).
  { destruct (Z.lt_trichotomy k 0) as [Hn | [-> | Hp]]; [| | exact Hp].
    - rewrite Z.pow_neg_r in Hhi by exact Hn. lia.
    - simpl in Hhi. lia. }
  assert (Zpos (digits2_pos p) - 1 < k).
  { apply (Z.pow_lt_mono_r_iff 2); lia. }
  assert (k - 1 < Zpos (digits2_pos p)).
  { apply (Z.pow_lt_mono_r_iff 2); lia. }
  lia.
Qed.

Lemma shr_1_m (mrs : shr_record) :
  0 <= shr_m mrs -> shr_m (shr_1 mrs) = shr_m mrs / 2.
Proof.
  destruct mrs as [m r s]. cbn [shr_m]. intros Hm.
  destruct m as [| p | p]; [reflexivity | | lia].
  destruct p as [p | p |]; cbn [shr_1 shr_m].
  - change (Zpos p~1) with (2 * Zpos p + 1).
    Z.div_mod_to_equations. lia.
  - change (Zpos p~0) with (2 * Zpos p).
    Z.div_mod_to_equations. lia.
  - reflexivity.
Qed.

Lemma iter_pos_shr_m (k : positive) (mrs : shr_record) :
  0 <= shr_m mrs ->
  0 <= shr_m (iter_pos shr_1 k mrs)
  /\ shr_m (iter_pos shr_1 k mrs) = shr_m mrs / 2 ^ Zpos k.
Proof.
  revert mrs. induction k as [k IH | k IH |]; intros mrs Hm; cbn [iter_pos].
  - assert (H1 : 0 <= shr_m (shr_1 mrs))
      by (rewrite shr_1_m by exact Hm; apply Z.div_pos; lia).
    destruct (IH _ H1) as [H2 E2]. destruct (IH _ H2) as [H3 E3].
    split; [exact H3 |]. rewrite E3, E2, shr_1_m by exact Hm.
    rewrite !Z.div_div by (try apply Z.pow_pos_nonneg; lia).
    f_equal. change (Zpos k~1) with (2 * Zpos k + 1).
    replace (2 * Zpos k + 1) with (1 + Zpos k + Zpos k) by lia.
    rewrite !Z.pow_add_r by lia. lia.
  - destruct (IH _ Hm) as [H2 E2]. destruct (IH _ H2) as [H3 E3].
    split; [exact H3 |]. rewrite E3, E2.
    rewrite !Z.div_div by (try apply Z.pow_pos_nonneg; lia).
    f_equal. change (Zpos k~0) with (2 * Zpos k).
    replace (2 * Zpos k) with (Zpos k + Zpos k) by lia.
    rewrite !Z.pow_add_r by lia. lia.
  - rewrite shr_1_m by exact Hm. split; [apply Z.div_pos; lia |].
    reflexivity.
Qed.

Lemma round_nearest_even_cases (m : Z) (l : location) :
  round_nearest_even m l = m \/ round_nearest_even m l = m + 1.
Proof.
  destruct l as [| []]; simpl; auto. destruct (Z.even m); auto.
Qed.

Lemma shr_m_of_loc (m : Z) (l : location) :
  shr_m (shr_record_of_loc m l) = m.
Proof. destruct l as [| []]; reflexivity. Qed.

(** Rounding a positive value below [2^52] whose mantissa has at least
    53 digits: the mantissa loses its low digits and is kept or raised
    by one; the result is a normal number, and cutting it at the binary
    point cuts that mantissa there. *)
Lemma binary_round_aux_shape (p : positive) (e : Z) (l : location) :
  53 <= Zpos (digits2_pos p) ->
  -1021 <= Zpos (digits2_pos p) + e <= 52 ->
  exists m1 mm ee,
    (m1 = Zpos p / 2 ^ (Zpos (digits2_pos p) - 53)
     \/ m1 = Zpos p / 2 ^ (Zpos (digits2_pos p) - 53) + 1)
    /\ binary_round_aux prec emax false (Zpos p) e l = S754_finite false mm ee
    /\ 2 ^ 52 <= Zpos mm < 2 ^ 53
    /\ ee <= 0
    /\ Zpos mm / 2 ^ (- ee) = m1 / 2 ^ (53 - Zpos (digits2_pos p) - e).
Proof.
  set (d := Zpos (digits2_pos p)). intros Hd He.
  set (q := Zpos p / 2 ^ (d - 53)).
  assert (Hq : 2 ^ 52 <= q < 2 ^ 53).
  { pose proof (digits2_pos_bounds p) as [Dlo Dhi]. fold d in Dlo, Dhi.
    assert (Hpow : 0 < 2 ^ (d - 53)) by (apply Z.pow_pos_nonneg; lia).
    assert (Dlo' : 2 ^ 52 * 2 ^ (d - 53) <= Zpos p).
    { rewrite <- Z.pow_add_r by lia.
      now replace (52 + (d - 53)) with (d - 1) by lia. }
    assert (Dhi' : Zpos p < 2 ^ 53 * 2 ^ (d - 53)).
    { rewrite <- Z.pow_add_r by lia.
      now replace (53 + (d - 53)) with d by lia. }
    unfold q. split.
    - apply Z.div_le_lower_bound; lia.
    - apply Z.div_lt_upper_bound; lia. }
  unfold binary_round_aux, shr_fexp. cbn [Zdigits2]. fold d.
  replace (fexp prec emax (d + e) - e) with (d - 53)
    by fexp_lia.
  assert (E1 : exists mrs',
             shr (shr_record_of_loc (Zpos p) l) e (d - 53)
             = (mrs', d + e - 53) /\ shr_m mrs' = q).
  { unfold shr. destruct (d - 53) as [| k | k] eqn:En; [| | lia].
    - eexists. split; [f_equal; lia |].
      rewrite shr_m_of_loc. unfold q. try rewrite En. simpl.
      now rewrite Z.div_1_r.
    - eexists. split; [f_equal; lia |].
      destruct (iter_pos_shr_m k (shr_record_of_loc (Zpos p) l)) as [_ E].
      + rewrite shr_m_of_loc. lia.
      + rewrite E, shr_m_of_loc. unfold q. try rewrite En. reflexivity. }
  destruct E1 as (mrs' & -> & Hm). rewrite Hm.
  set (m1 := round_nearest_even q (loc_of_shr_record mrs')).
  assert (Hm1 : m1 = q \/ m1 = q + 1) by apply round_nearest_even_cases.
  exists m1.
  assert (Hb : 2 ^ 52 <= m1 <= 2 ^ 53) by lia.
  destruct m1 as [| m1p | m1p] eqn:Em1;
    [exfalso; clear - Hb; simpl in Hb; lia | | exfalso; clear - Hb; lia].
  cbn [Zdigits2 shr_record_of_loc].
  destruct (Z.eq_dec (Zpos m1p) (2 ^ 53)) as [Etop | Ntop].
  - assert (Ep : m1p = 9007199254740992%positive)
      by (apply Pos2Z.inj; rewrite Etop; reflexivity).
    rewrite Ep.
    change (Zpos (digits2_pos 9007199254740992)) with 54.
    replace (fexp prec emax (54 + (d + e - 53)) - (d + e - 53)) with 1
      by fexp_lia.
    cbn [shr iter_pos shr_1 shr_m].
    replace (d + e - 53 + 1 <=? emax - prec) with true
      by (symmetry; apply Z.leb_le; unfold emax, prec; lia).
    exists 4503599627370496%positive, (d + e - 53 + 1).
    split; [rewrite <- Ep; exact Hm1 |]. split; [reflexivity |].
    split; [simpl; lia |]. split; [lia |].
    replace (53 - d - e) with (1 + - (d + e - 53 + 1)) by lia.
    rewrite Z.pow_add_r by lia.
    rewrite <- Z.div_div by (try apply Z.pow_pos_nonneg; lia).
    reflexivity.
  - assert (Edig : Zpos (digits2_pos m1p) = 53)
      by (apply digits2_pos_unique; simpl (53 - 1); lia).
    rewrite Edig.
    replace (fexp prec emax (53 + (d + e - 53)) - (d + e - 53)) with 0
      by fexp_lia.
    cbn [shr shr_m].
    replace (d + e - 53 <=? emax - prec) with true
      by (symmetry; apply Z.leb_le; unfold emax, prec; lia).
    exists m1p, (d + e - 53).
    split; [exact Hm1 |]. split; [reflexivity |].
    split; [lia |]. split; [lia |]. do 2 f_equal. lia.
Qed.

Lemma trunc_finite (mm : positive) (ee : Z) :
  ee <= 0 -> trunc (S754_finite false mm ee) = Zpos mm / 2 ^ (- ee).
Proof.
  intros He. unfold trunc. destruct (0 <=? ee) eqn:E.
  - apply Z.leb_le in E. replace ee with 0 by lia. simpl.
    now rewrite Z.div_1_r.
  - apply Z.leb_gt in E. apply Z.shiftr_div_pow2. lia.
Qed.

Lemma binary_round_aux_trunc (p : positive) (e : Z) (l : location) :
  53 <= Zpos (digits2_pos p) ->
  -1021 <= Zpos (digits2_pos p) + e <= 52 ->
  exists m1,
    (m1 = Zpos p / 2 ^ (Zpos (digits2_pos p) - 53)
     \/ m1 = Zpos p / 2 ^ (Zpos (digits2_pos p) - 53) + 1)
    /\ is_finite (binary_round_aux prec emax false (Zpos p) e l) = true
    /\ trunc (binary_round_aux prec emax false (Zpos p) e l)
       = m1 / 2 ^ (53 - Zpos (digits2_pos p) - e).
Proof.
  intros Hd He.
  destruct (binary_round_aux_shape p e l Hd He)
    as (m1 & mm & ee & Hm1 & -> & _ & Hee & Htr).
  exists m1. split; [exact Hm1 |]. split; [reflexivity |].
  now rewrite trunc_finite.
Qed.

Lemma pos_iter_xO (p k : positive) :
  Zpos (Pos.iter xO p k) = Zpos p * 2 ^ Zpos k.
Proof.
  induction k as [| k IH] using Pos.peano_ind.
  - simpl. lia.
  - rewrite Pos.iter_succ, Pos2Z.inj_succ, Z.pow_succ_r by lia.
    change (Zpos (Pos.iter xO p k)~0) with (2 * Zpos (Pos.iter xO p k)).
    rewrite IH. lia.
Qed.

(** A mantissa of exactly 53 digits is left as it is. *)
Lemma binary_round_aux_exact (m : positive) (e : Z) :
  Zpos (digits2_pos m) = 53 -> -1074 <= e <= 971 ->
  binary_round_aux prec emax false (Zpos m) e loc_Exact
  = S754_finite false m e.
Proof.
  intros Hd He. unfold binary_round_aux, shr_fexp.
  cbn [Zdigits2 shr_record_of_loc]. rewrite Hd.
  replace (fexp prec emax (53 + e) - e) with 0
    by fexp_lia.
  cbn [shr shr_m loc_of_shr_record round_nearest_even Zdigits2
       shr_record_of_loc].
  rewrite Hd.
  replace (fexp prec emax (53 + e) - e) with 0
    by fexp_lia.
  cbn [shr shr_m].
  replace (e <=? emax - prec) with true
    by (symmetry; apply Z.leb_le; unfold emax, prec; lia).
  reflexivity.
Qed.

(** [float(w)] for a positive integer below [2^53]: the integer moved
    up to a mantissa of 53 digits. *)
Lemma of_Z_pos (w : Z) :
  0 < w < 2 ^ 53 ->
  exists m j,
    of_Z w = S754_finite false m (- j)
    /\ 0 <= j <= 52
    /\ Zpos m = w * 2 ^ j
    /\ Zpos (digits2_pos m) = 53.
Proof.
  intros [Hpos Hlt]. destruct w as [| p | p]; try lia.
  pose proof (digits2_pos_bounds p) as [Dlo Dhi].
  set (d := Zpos (digits2_pos p)) in *.
  assert (Hd : 1 <= d <= 53).
  { split; [unfold d; lia |].
    assert (d - 1 < 53) by (apply (Z.pow_lt_mono_r_iff 2); lia). lia. }
  unfold of_Z, binary_normalize, binary_round. fold d.
  replace (fexp prec emax (d + 0)) with (d - 53)
    by fexp_lia.
  unfold shl_align. rewrite Z.sub_0_r.
  destruct (d - 53) as [| k | k] eqn:Ek; [| lia |].
  - exists p, 0. assert (Ed : d = 53) by lia.
    rewrite binary_round_aux_exact by (fold d; lia).
    repeat split; simpl; lia.
  - assert (Em : Zpos (Pos.iter xO p k) = Zpos p * 2 ^ Zpos k)
      by apply pos_iter_xO.
    assert (Edig : Zpos (digits2_pos (Pos.iter xO p k)) = 53).
    { apply digits2_pos_unique. rewrite Em.
      assert (Hk : Zpos k = 53 - d) by lia. rewrite Hk.
      assert (P52 : 2 ^ (53 - 1) = 2 ^ (d - 1) * 2 ^ (53 - d))
        by (rewrite <- Z.pow_add_r by lia; f_equal; lia).
      assert (P53 : 2 ^ 53 = 2 ^ d * 2 ^ (53 - d))
        by (rewrite <- Z.pow_add_r by lia; f_equal; lia).
      assert (0 < 2 ^ (53 - d)) by (apply Z.pow_pos_nonneg; lia).
      split.
      - rewrite P52. apply Z.mul_le_mono_nonneg_r; lia.
      - rewrite P53. apply Z.mul_lt_mono_pos_r; lia. }
    exists (Pos.iter xO p k), (Zpos k).
    rewrite binary_round_aux_exact by (try exact Edig; lia).
    repeat split; (lia || exact Em || exact Edig).
Qed.

(** The arithmetic behind [int(w * 0.2)]: with [5 * M = 2^55 + 2] the
    quotient of [w * M] by [2^55] is [w / 5], and a mantissa raised by
    one in its last place stays below the next integer. *)
Lemma fifth_arith (w J N T P m1 : Z) :
  0 <= w < 2 ^ 31 -> 0 < J -> 0 < N -> 0 < T ->
  N * T = J * 2 ^ 55 -> N <= 2 ^ 31 * J ->
  P = w * J * 7205759403792794 ->
  m1 = P / N \/ m1 = P / N + 1 ->
  m1 / T = w / 5.
Proof.
  intros Hw HJ HN HT HNT HNJ HP Hm1.
  pose proof (Z.div_mod w 5 ltac:(lia)) as Hdm.
  pose proof (Z.mod_pos_bound w 5 ltac:(lia)) as Hr.
  set (q := w / 5) in *. set (r := w mod 5) in *.
  pose proof (Z.mul_div_le P N HN) as Hlo.
  pose proof (Z.mul_succ_div_gt P N HN) as Hhi.
  set (Q := P / N) in *.
  change (2 ^ 55) with 36028797018963968 in *.
  change (2 ^ 31) with 2147483648 in *.
  assert (Hq : 0 <= q) by lia.
  assert (H1 : q * 36028797018963968 <= w * 7205759403792794) by lia.
  assert (H2 : w * 7205759403792794 + 2147483648
               < (q + 1) * 36028797018963968) by lia.
  assert (L : q * T <= Q).
  { assert (q * T * N <= P).
    { replace (q * T * N) with (q * 36028797018963968 * J) by nia.
      rewrite HP.
      replace (w * J * 7205759403792794)
        with (w * 7205759403792794 * J) by lia.
      apply Z.mul_le_mono_nonneg_r; lia. }
    nia. }
  assert (U : Q + 1 < (q + 1) * T).
  { assert (N * (Q + 1) < (q + 1) * T * N).
    { replace ((q + 1) * T * N)
        with ((q + 1) * 36028797018963968 * J) by nia.
      assert (P + N <= (w * 7205759403792794 + 2147483648) * J).
      { rewrite HP. nia. }
      assert ((w * 7205759403792794 + 2147483648) * J
              < (q + 1) * 36028797018963968 * J)
        by (apply Z.mul_lt_mono_pos_r; lia).
      lia. }
    nia. }
  symmetry. apply Z.div_unique with (r := m1 - q * T); lia.
Qed.

(** [int(w * 0.2)] is [w // 5] for every [w] below [2^31]. *)
Lemma int_mul_fifth (w : Z) :
  0 <= w < 2 ^ 31 -> py_int (mul (of_Z w) c0_2) = Some (w / 5).
Proof.
  intros [H0 Hlt]. destruct (Z.eq_dec w 0) as [-> | Hne]; [reflexivity |].
  destruct (of_Z_pos w) as (m & j & E & Hj & Hm & Hdig).
  { split; [lia |]. change (2 ^ 53) with 9007199254740992.
    change (2 ^ 31) with 2147483648 in Hlt. lia. }
  rewrite E. unfold mul, c0_2, SFmul. cbn [xorb].
  set (P := (m * 7205759403792794)%positive).
  assert (HP : Zpos P = w * 2 ^ j * 7205759403792794)
    by (unfold P; rewrite Pos2Z.inj_mul, Hm; reflexivity).
  pose proof (digits2_pos_bounds P) as [Dlo Dhi].
  pose proof (digits2_pos_bounds m) as [Mlo _]. rewrite Hdig in Mlo.
  set (d := Zpos (digits2_pos P)) in *.
  assert (HJ : 0 < 2 ^ j) by (apply Z.pow_pos_nonneg; lia).
  assert (Hd1 : 104 < d).
  { apply (Z.pow_lt_mono_r_iff 2); [lia | unfold d; lia |].
    eapply Z.le_lt_trans; [| exact Dhi].
    unfold P. rewrite Pos2Z.inj_mul.
    change (2 ^ 104) with (2 ^ 52 * 2 ^ 52).
    apply Z.mul_le_mono_nonneg; simpl in *; lia. }
  assert (Hd2 : d - 1 < 84 + j).
  { apply (Z.pow_lt_mono_r_iff 2); [lia | lia |].
    eapply Z.le_lt_trans; [exact Dlo |]. rewrite HP.
    replace (84 + j) with (31 + j + 53) by lia.
    rewrite !Z.pow_add_r by lia.
    apply Z.mul_lt_mono_nonneg; [nia | nia | lia | reflexivity]. }
  destruct (binary_round_aux_trunc P (- j + -55) loc_Exact)
    as (m1 & Hm1 & Hfin & Htr); fold d; [lia | lia |].
  unfold py_int. rewrite Hfin, Htr. f_equal. fold d in Hm1 |- *.
  apply (fifth_arith w (2 ^ j) (2 ^ (d - 53)) (2 ^ (53 - d - (- j + -55)))
           (Zpos P) m1).
  - lia.
  - exact HJ.
  - apply Z.pow_pos_nonneg; lia.
  - apply Z.pow_pos_nonneg; lia.
  - rewrite <- !Z.pow_add_r by lia. f_equal. lia.
  - rewrite <- Z.pow_add_r by lia. apply Z.pow_le_mono_r; lia.
  - exact HP.
  - exact Hm1.
Qed.

(** The arithmetic behind the quotient of two small integers: the
    quotient [q] of the mantissas, cut down to 53 digits and possibly
    raised by one, still has the integer part [n / d], because a proper
    fraction with denominator [d] stays [1 / d] away from the next
    integer. *)
Lemma quotient_arith (n d Jn Jd N T q m1 : Z) :
  0 <= n -> 0 < d -> 0 < Jn -> 0 < Jd -> 0 < N -> 0 < T -> d < T ->
  N * T * Jd = Jn * 2 ^ 53 ->
  q = n * Jn * 2 ^ 53 / (d * Jd) ->
  m1 = q / N \/ m1 = q / N + 1 ->
  m1 / T = n / d.
Proof.
  intros Hn Hd HJn HJd HN HT HdT HK Hq Hm1.
  set (K := Jn * 2 ^ 53) in *.
  assert (HD : 0 < d * Jd) by nia.
  replace (n * Jn * 2 ^ 53) with (n * K) in Hq by (unfold K; lia).
  pose proof (Z.mul_div_le (n * K) (d * Jd) HD) as Qlo.
  pose proof (Z.mul_succ_div_gt (n * K) (d * Jd) HD) as Qhi.
  rewrite <- Hq in Qlo, Qhi.
  pose proof (Z.mul_div_le q N HN) as Nlo.
  pose proof (Z.mul_succ_div_gt q N HN) as Nhi.
  set (Q := q / N) in *.
  pose proof (Z.mul_div_le n d Hd) as Dlo.
  pose proof (Z.mul_succ_div_gt n d Hd) as Dhi.
  set (Q0 := n / d) in *.
  assert (HQ0 : 0 <= Q0) by (apply Z.div_pos; lia).
  assert (HK0 : 0 < K) by (unfold K; nia).
  assert (L : Q0 * T <= Q).
  { assert (A1 : Q0 * T * N * (d * Jd) = d * Q0 * K) by (rewrite <- HK; ring).
    assert (A2 : d * Q0 * K <= n * K) by (apply Z.mul_le_mono_nonneg_r; lia).
    assert (A3 : Q0 * T * N * (d * Jd) < d * Jd * Z.succ q) by lia.
    assert (A4 : Q0 * T * N < Z.succ q).
    { apply (Z.mul_lt_mono_pos_r (d * Jd)); lia. }
    assert (A5 : Q0 * T * N < N * Z.succ Q) by lia.
    assert (A6 : Q0 * T < Z.succ Q).
    { apply (Z.mul_lt_mono_pos_r N); lia. }
    lia. }
  assert (U : Q + 1 < (Q0 + 1) * T).
  { assert (B1 : n + 1 <= d * (Q0 + 1)) by lia.
    assert (B2 : (n + 1) * K <= d * (Q0 + 1) * K)
      by (apply Z.mul_le_mono_nonneg_r; lia).
    assert (B3 : N * Q * (d * Jd) <= n * K).
    { assert (N * Q * (d * Jd) <= q * (d * Jd))
        by (apply Z.mul_le_mono_nonneg_r; lia).
      lia. }
    assert (B4 : N * Q * (d * Jd) + N * T * Jd <= d * (Q0 + 1) * (N * T * Jd)).
    { rewrite HK. lia. }
    assert (B5 : (Q * d + T) * (N * Jd) <= d * (Q0 + 1) * T * (N * Jd)).
    { replace ((Q * d + T) * (N * Jd))
        with (N * Q * (d * Jd) + N * T * Jd) by ring.
      replace (d * (Q0 + 1) * T * (N * Jd))
        with (d * (Q0 + 1) * (N * T * Jd)) by ring.
      exact B4. }
    assert (B6 : Q * d + T <= d * (Q0 + 1) * T).
    { apply (Z.mul_le_mono_pos_r _ _ (N * Jd)); [nia | exact B5]. }
    assert (B7 : (Q + 1) * d < (Q0 + 1) * T * d) by lia.
    apply (Z.mul_lt_mono_pos_r d); lia. }
  symmetry. apply Z.div_unique with (r := m1 - Q0 * T); lia.
Qed.

(** The binary64 quotient of two small positive integers: a normal
    number whose integer part is the integer quotient. *)
Lemma div_small (n d : Z) :
  0 < n < 2 ^ 16 -> 0 < d < 2 ^ 8 ->
  exists mm ee,
    div (of_Z n) (of_Z d) = S754_finite false mm ee
    /\ 2 ^ 52 <= Zpos mm < 2 ^ 53
    /\ ee <= 0
    /\ Zpos mm / 2 ^ (- ee) = n / d.
Proof.
  intros Hn Hd.
  change (2 ^ 16) with 65536 in Hn. change (2 ^ 8) with 256 in Hd.
  destruct (of_Z_pos n) as (mn & jn & En & Hjn & Hmn & Hdn);
    [change (2 ^ 53) with 9007199254740992; lia |].
  destruct (of_Z_pos d) as (md & jd & Ed & Hjd & Hmd & Hdd);
    [change (2 ^ 53) with 9007199254740992; lia |].
  pose proof (digits2_pos_bounds mn) as [Nlo Nhi]. rewrite Hdn in Nlo, Nhi.
  pose proof (digits2_pos_bounds md) as [Dlo Dhi]. rewrite Hdd in Dlo, Dhi.
  assert (HJn : 0 < 2 ^ jn) by (apply Z.pow_pos_nonneg; lia).
  assert (HJd : 0 < 2 ^ jd) by (apply Z.pow_pos_nonneg; lia).
  assert (Hjn' : 36 < jn).
  { apply (Z.pow_lt_mono_r_iff 2); [lia | lia |].
    change (2 ^ 36) with 68719476736.
    change (2 ^ (53 - 1)) with 4503599627370496 in Nlo. nia. }
  rewrite En, Ed. unfold div, SFdiv. cbn [xorb].
  unfold SFdiv_core_binary. cbn [Zdigits2]. rewrite Hdn, Hdd.
  replace (Z.min (fexp prec emax (53 + - jn - (53 + - jd))) (- jn - - jd))
    with (jd - jn - 53) by fexp_lia.
  replace (- jn - - jd - (jd - jn - 53)) with 53 by lia.
  rewrite Z.shiftl_mul_pow2 by lia.
  assert (Eq : fst (Z.div_eucl (Zpos mn * 2 ^ 53) (Zpos md))
               = Zpos mn * 2 ^ 53 / Zpos md) by reflexivity.
  destruct (Z.div_eucl (Zpos mn * 2 ^ 53) (Zpos md)) as [q r].
  cbn [fst] in Eq.
  assert (Hq : 2 ^ 52 <= q < 2 ^ 54).
  { rewrite Eq. change (2 ^ (53 - 1)) with (2 ^ 52) in *. split.
    - apply Z.div_le_lower_bound; [lia |].
      change (2 ^ 53) with (2 * 2 ^ 52) at 1. nia.
    - apply Z.div_lt_upper_bound; [lia |].
      change (2 ^ 54) with (2 * 2 ^ 53). nia. }
  destruct q as [| qp | qp];
    [exfalso; simpl in Hq; lia | | exfalso; clear - Hq; lia].
  pose proof (digits2_pos_bounds qp) as [Qlo Qhi].
  set (dq := Zpos (digits2_pos qp)) in *.
  assert (Hdq : 53 <= dq <= 54).
  { assert (52 < dq)
      by (apply (Z.pow_lt_mono_r_iff 2); [lia | unfold dq; lia | lia]).
    assert (dq - 1 < 54) by (apply (Z.pow_lt_mono_r_iff 2); lia).
    lia. }
  destruct (binary_round_aux_shape qp (jd - jn - 53)
              (new_location (Zpos md) r))
    as (m1 & mm & ee & Hm1 & E & Hmm & Hee & Htr); fold dq; [lia | lia |].
  exists mm, ee. split; [exact E |]. split; [exact Hmm |].
  split; [exact Hee |]. rewrite Htr. fold dq in Hm1 |- *.
  apply (quotient_arith n d (2 ^ jn) (2 ^ jd) (2 ^ (dq - 53))
           (2 ^ (53 - dq - (jd - jn - 53))) (Zpos qp) m1).
  - lia.
  - lia.
  - exact HJn.
  - exact HJd.
  - apply Z.pow_pos_nonneg; lia.
  - apply Z.pow_pos_nonneg; lia.
  - assert (2 ^ 8 <= 2 ^ (53 - dq - (jd - jn - 53)))
      by (apply Z.pow_le_mono_r; lia).
    change (2 ^ 8) with 256 in *. lia.
  - rewrite <- !Z.pow_add_r by lia. f_equal; lia.
  - rewrite Eq, Hmn, Hmd. f_equal; ring.
  - exact Hm1.
Qed.

(** Clipping and cutting to 8 bits a normal positive number whose
    integer part is at most 255 gives that integer part. *)
Lemma clip_small (mm : positive) (ee : Z) :
  2 ^ 52 <= Zpos mm < 2 ^ 53 -> ee <= 0 ->
  Zpos mm / 2 ^ (- ee) <= 255 ->
  to_uint8 (clip (S754_finite false mm ee)) = Zpos mm / 2 ^ (- ee).
Proof.
  intros Hmm Hee Hle.
  assert (H0 : 0 <= Zpos mm / 2 ^ (- ee))
    by (apply Z.div_pos; [lia | apply Z.pow_pos_nonneg; lia]).
  unfold clip. change (ltb (S754_finite false mm ee) zero) with false.
  cbv iota. unfold ltb, SFltb, c255, SFcompare.
  destruct (Z.compare (-45) ee) eqn:Ec.
  - apply Z.compare_eq in Ec. subst ee.
    change (Pos.compare_cont Eq 8972014882652160 mm)
      with (Pos.compare 8972014882652160 mm).
    destruct (Pos.compare 8972014882652160 mm) eqn:Em.
    + unfold to_uint8. rewrite trunc_finite by lia.
      apply Z.mod_small. lia.
    + assert (Hlt : (8972014882652160 < mm)%positive) by exact Em.
      assert (255 <= Zpos mm / 2 ^ (- -45)).
      { apply Z.div_le_lower_bound; [reflexivity |].
        change (2 ^ (- -45) * 255) with 8972014882652160. lia. }
      replace (Zpos mm / 2 ^ (- -45)) with 255 by lia. reflexivity.
    + unfold to_uint8. rewrite trunc_finite by lia.
      apply Z.mod_small. lia.
  - assert (Hlt : -45 < ee) by exact Ec. exfalso.
    assert (256 <= Zpos mm / 2 ^ (- ee)); [| lia].
    apply Z.div_le_lower_bound; [apply Z.pow_pos_nonneg; lia |].
    assert (2 ^ (- ee) <= 2 ^ 44) by (apply Z.pow_le_mono_r; lia).
    change (2 ^ 52) with (2 ^ 44 * 256) in Hmm. lia.
  - unfold to_uint8. rewrite trunc_finite by lia.
    apply Z.mod_small. lia.
Qed.

Lemma mul255_of_Z (x : Z) :
  in_range x -> mul (of_Z x) c255 = of_Z (x * 255).
Proof.
  intros Hx. pose proof all_mul255_exact as H.
  rewrite forallb_forall in H. specialize (H _ (byte_floats_In x Hx)).
  unfold mul255_exact in H. cbn [fst snd] in H. now apply float_eqb_eq.
Qed.

(** The binary64 quotient of the stretch, clipped and cut to 8 bits, is
    the integer quotient rounded down. *)
Lemma div_of_Z (x d : Z) :
  in_range d -> 0 < d -> 0 <= x <= d ->
  to_uint8 (clip (div (mul (of_Z x) c255) (of_Z d))) = x * 255 / d.
Proof.
  intros Hd Hpos Hx.
  assert (Hxr : in_range x) by (unfold in_range in *; lia).
  rewrite mul255_of_Z by exact Hxr.
  destruct (Z.eq_dec x 0) as [-> | Hx0].
  - destruct (of_Z_pos d) as (md & jd & Ed & _);
      [unfold in_range in Hd; change (2 ^ 53) with 9007199254740992; lia |].
    rewrite Ed. reflexivity.
  - destruct (div_small (x * 255) d) as (mm & ee & E & Hmm & Hee & Htr).
    + change (2 ^ 16) with 65536. unfold in_range in *. lia.
    + change (2 ^ 8) with 256. unfold in_range in *. lia.
    + rewrite E, clip_small; try assumption.
      rewrite Htr. apply Z.div_le_upper_bound; [lia | nia].
Qed.

Lemma id_of_Z (v : Z) : in_range v -> to_uint8 (clip (of_Z v)) = v.
Proof.
  intros Hv. pose proof all_round_trip as H.
  rewrite forallb_forall in H. specialize (H _ (byte_floats_In v Hv)).
  unfold round_trip in H. cbn [fst snd] in H. apply Z.eqb_eq in H. exact H.
Qed.

Lemma stretch_range (lo hi v : Z) :
  in_range v -> in_range (stretch lo hi v).
Proof.
  unfold stretch, in_range. intros Hv.
  destruct (lo <? hi); lia.
Qed.

Lemma stretch_mono (lo hi v w : Z) :
  v <= w -> stretch lo hi v <= stretch lo hi w.
Proof.
  intros Hvw. unfold stretch. destruct (lo <? hi) eqn:E; [| exact Hvw].
  apply Z.ltb_lt in E.
  assert ((v - lo) * 255 / (hi - lo) <= (w - lo) * 255 / (hi - lo))
    by (apply Z.div_le_mono; lia).
  lia.
Qed.

(** In binary64 the script computes the integer stretch. *)
Lemma levels_sample_stretch (lo hi v : Z) :
  in_range lo -> in_range hi -> lo <= v <= hi ->
  levels_sample lo hi v = stretch lo hi v.
Proof.
  intros Hlo Hhi Hv.
  assert (Hvr : in_range v) by (unfold in_range in *; lia).
  unfold levels_sample, levels_float, stretch.
  rewrite ltb_of_Z by assumption.
  destruct (lo <? hi) eqn:E.
  - apply Z.ltb_lt in E.
    rewrite !sub_of_Z by (assumption || lia).
    rewrite div_of_Z by (unfold in_range in *; lia).
    assert (0 <= (v - lo) * 255 / (hi - lo)) by (apply Z.div_pos; lia).
    assert ((v - lo) * 255 / (hi - lo) <= 255).
    { apply Z.div_le_upper_bound; [lia |]. nia. }
    lia.
  - apply id_of_Z. exact Hvr.
Qed.

(** ** Extremes of a channel *)

Lemma fold_min_In (rest : list Z) (x : Z) :
  In (fold_left Z.min rest x) (x :: rest).
Proof.
  revert x. induction rest as [| y rest IH]; intros x; simpl.
  - now left.
  - destruct (IH (Z.min x y)) as [H | H].
    + rewrite <- H.
      destruct (Z.min_spec x y) as [[_ ->] | [_ ->]]; simpl; auto.
    + simpl. auto.
Qed.

Lemma fold_max_In (rest : list Z) (x : Z) :
  In (fold_left Z.max rest x) (x :: rest).
Proof.
  revert x. induction rest as [| y rest IH]; intros x; simpl.
  - now left.
  - destruct (IH (Z.max x y)) as [H | H].
    + rewrite <- H.
      destruct (Z.max_spec x y) as [[_ ->] | [_ ->]]; simpl; auto.
    + simpl. auto.
Qed.

Lemma fold_min_le_init (rest : list Z) (x : Z) :
  fold_left Z.min rest x <= x.
Proof.
  revert x. induction rest as [| z rest IH]; intros x; simpl; [lia |].
  specialize (IH (Z.min x z)). lia.
Qed.

Lemma fold_max_ge_init (rest : list Z) (x : Z) :
  x <= fold_left Z.max rest x.
Proof.
  revert x. induction rest as [| z rest IH]; intros x; simpl; [lia |].
  specialize (IH (Z.max x z)). lia.
Qed.

Lemma fold_min_le (rest : list Z) (x y : Z) :
  In y (x :: rest) -> fold_left Z.min rest x <= y.
Proof.
  revert x. induction rest as [| z rest IH]; intros x.
  - intros [-> | []]. simpl. lia.
  - intros [-> | [-> | H]]; simpl.
    + pose proof (fold_min_le_init rest (Z.min y z)). lia.
    + pose proof (fold_min_le_init rest (Z.min x y)). lia.
    + apply IH. now right.
Qed.

Lemma fold_max_ge (rest : list Z) (x y : Z) :
  In y (x :: rest) -> y <= fold_left Z.max rest x.
Proof.
  revert x. induction rest as [| z rest IH]; intros x.
  - intros [-> | []]. simpl. lia.
  - intros [-> | [-> | H]]; simpl.
    + pose proof (fold_max_ge_init rest (Z.max y z)). lia.
    + pose proof (fold_max_ge_init rest (Z.max x y)). lia.
    + apply IH. now right.
Qed.

(** A non-decreasing map commutes with the extremes. *)
Lemma fold_min_map (S : Z -> Z) (rest : list Z) (x : Z) :
  (forall v w, v <= w -> S v <= S w) ->
  fold_left Z.min (map S rest) (S x) = S (fold_left Z.min rest x).
Proof.
  intros Hmono. revert x. induction rest as [| y rest IH]; intros x; simpl.
  - reflexivity.
  - rewrite <- IH. f_equal.
    destruct (Z.min_spec x y) as [[Hlt ->] | [Hle ->]].
    + apply Z.min_l. apply Hmono. lia.
    + apply Z.min_r. now apply Hmono.
Qed.

Lemma fold_max_map (S : Z -> Z) (rest : list Z) (x : Z) :
  (forall v w, v <= w -> S v <= S w) ->
  fold_left Z.max (map S rest) (S x) = S (fold_left Z.max rest x).
Proof.
  intros Hmono. revert x. induction rest as [| y rest IH]; intros x; simpl.
  - reflexivity.
  - rewrite <- IH. f_equal.
    destruct (Z.max_spec x y) as [[Hlt ->] | [Hle ->]].
    + apply Z.max_r. apply Hmono. lia.
    + apply Z.max_l. now apply Hmono.
Qed.

Lemma fmin_of_Z (a b : Z) :
  in_range a -> in_range b -> fmin (of_Z a) (of_Z b) = of_Z (Z.min a b).
Proof.
  intros Ha Hb. unfold fmin. rewrite ltb_of_Z by assumption.
  destruct (b <? a) eqn:E.
  - apply Z.ltb_lt in E. now rewrite Z.min_r by lia.
  - apply Z.ltb_ge in E. now rewrite Z.min_l by lia.
Qed.

Lemma fmax_of_Z (a b : Z) :
  in_range a -> in_range b -> fmax (of_Z a) (of_Z b) = of_Z (Z.max a b).
Proof.
  intros Ha Hb. unfold fmax. rewrite ltb_of_Z by assumption.
  destruct (a <? b) eqn:E.
  - apply Z.ltb_lt in E. now rewrite Z.max_r by lia.
  - apply Z.ltb_ge in E. now rewrite Z.max_l by lia.
Qed.

Lemma fold_fmin_of_Z (rest : list Z) (x : Z) :
  Forall in_range (x :: rest) ->
  fold_left fmin (map of_Z rest) (of_Z x) = of_Z (fold_left Z.min rest x).
Proof.
  revert x. induction rest as [| y rest IH]; intros x H; simpl.
  - reflexivity.
  - inversion H as [| ? ? Hx H']; subst. inversion H' as [| ? ? Hy H'']; subst.
    rewrite fmin_of_Z by assumption. apply IH. constructor; [| assumption].
    unfold in_range in *. lia.
Qed.

Lemma fold_fmax_of_Z (rest : list Z) (x : Z) :
  Forall in_range (x :: rest) ->
  fold_left fmax (map of_Z rest) (of_Z x) = of_Z (fold_left Z.max rest x).
Proof.
  revert x. induction rest as [| y rest IH]; intros x H; simpl.
  - reflexivity.
  - inversion H as [| ? ? Hx H']; subst. inversion H' as [| ? ? Hy H'']; subst.
    rewrite fmax_of_Z by assumption. apply IH. constructor; [| assumption].
    unfold in_range in *. lia.
Qed.

Lemma np_min_of_Z (s : list (list Z)) :
  samples_ok s -> np_min (map2d of_Z s) = Some (of_Z (zmin2d s)).
Proof.
  intros [Hne Hr]. unfold np_min, zmin2d, map2d.
  rewrite <- concat_map.
  destruct (List.concat s) as [| x rest]; [congruence |]. simpl.
  now rewrite fold_fmin_of_Z.
Qed.

Lemma np_max_of_Z (s : list (list Z)) :
  samples_ok s -> np_max (map2d of_Z s) = Some (of_Z (zmax2d s)).
Proof.
  intros [Hne Hr]. unfold np_max, zmax2d, map2d.
  rewrite <- concat_map.
  destruct (List.concat s) as [| x rest]; [congruence |]. simpl.
  now rewrite fold_fmax_of_Z.
Qed.

Lemma zmin2d_le (s : list (list Z)) (v : Z) :
  In v (List.concat s) -> zmin2d s <= v.
Proof.
  unfold zmin2d. destruct (List.concat s) as [| x rest]; [intros [] |].
  apply fold_min_le.
Qed.

Lemma zmax2d_ge (s : list (list Z)) (v : Z) :
  In v (List.concat s) -> v <= zmax2d s.
Proof.
  unfold zmax2d. destruct (List.concat s) as [| x rest]; [intros [] |].
  apply fold_max_ge.
Qed.

Lemma zmin2d_range (s : list (list Z)) : samples_ok s -> in_range (zmin2d s).
Proof.
  intros [Hne Hr]. unfold zmin2d.
  destruct (List.concat s) as [| x rest]; [congruence |].
  rewrite Forall_forall in Hr. apply Hr. apply fold_min_In.
Qed.

Lemma zmax2d_range (s : list (list Z)) : samples_ok s -> in_range (zmax2d s).
Proof.
  intros [Hne Hr]. unfold zmax2d.
  destruct (List.concat s) as [| x rest]; [congruence |].
  rewrite Forall_forall in Hr. apply Hr. apply fold_max_In.
Qed.

Lemma zmin2d_map (S : Z -> Z) (s : list (list Z)) :
  (forall v w, v <= w -> S v <= S w) -> List.concat s <> [] ->
  zmin2d (map2d S s) = S (zmin2d s).
Proof.
  intros Hmono Hne. unfold zmin2d, map2d. rewrite <- concat_map.
  destruct (List.concat s) as [| x rest]; [congruence |]. simpl.
  now apply fold_min_map.
Qed.

Lemma zmax2d_map (S : Z -> Z) (s : list (list Z)) :
  (forall v w, v <= w -> S v <= S w) -> List.concat s <> [] ->
  zmax2d (map2d S s) = S (zmax2d s).
Proof.
  intros Hmono Hne. unfold zmax2d, map2d. rewrite <- concat_map.
  destruct (List.concat s) as [| x rest]; [congruence |]. simpl.
  now apply fold_max_map.
Qed.

(** ** Arrays *)

Lemma chan_map_pixel {A B : Type} (f : A -> B) (c : channel) (p : pixel A) :
  chan c (map_pixel f p) = f (chan c p).
Proof. destruct p as [[r g] b], c; reflexivity. Qed.

Lemma set_chan_chan {T : Type} (c : channel) (p : pixel T) :
  set_chan c (chan c p) p = p.
Proof. destruct p as [[r g] b], c; reflexivity. Qed.

Lemma map2d_map2d {A B C : Type} (f : B -> C) (g : A -> B)
    (a : list (list A)) :
  map2d f (map2d g a) = map2d (fun x => f (g x)) a.
Proof.
  unfold map2d. rewrite map_map. apply map_ext. intros row.
  apply map_map.
Qed.

Lemma map2d_ext_in {A B : Type} (f g : A -> B) (a : list (list A)) :
  (forall row x, In row a -> In x row -> f x = g x) ->
  map2d f a = map2d g a.
Proof.
  intros H. unfold map2d. apply map_ext_in. intros row Hrow.
  apply map_ext_in. intros x Hx. now apply (H row).
Qed.

Lemma slice_map2d {A T : Type} (c : channel) (F : A -> pixel T)
    (a : list (list A)) :
  slice c (map2d F a) = map2d (fun p => chan c (F p)) a.
Proof. unfold slice. apply (map2d_map2d (chan c) F). Qed.

Lemma assign_row_map {A T : Type} (c : channel) (h : A -> T)
    (F : A -> pixel T) (row : list A) :
  assign_row c (map h row) (map F row) =
  map (fun p => set_chan c (h p) (F p)) row.
Proof.
  induction row as [| p row IH]; simpl; [reflexivity |]. now rewrite IH.
Qed.

Lemma assign_map2d {A T : Type} (c : channel) (h : A -> T)
    (F : A -> pixel T) (a : list (list A)) :
  assign c (map2d h a) (map2d F a) =
  map2d (fun p => set_chan c (h p) (F p)) a.
Proof.
  unfold map2d. induction a as [| row a IH]; simpl; [reflexivity |].
  now rewrite assign_row_map, IH.
Qed.

Lemma In_concat_slice (c : channel) (a : ndarray Z) (row : list (pixel Z))
    (p : pixel Z) :
  In row a -> In p row -> In (chan c p) (List.concat (slice c a)).
Proof.
  intros Hrow Hp. apply in_concat. exists (map (chan c) row). split.
  - unfold slice. now apply in_map.
  - now apply in_map.
Qed.

Lemma raster_samples_ok (a : ndarray Z) (sz : Dimensions) (c : channel) :
  raster_ok a sz -> samples_ok (slice c a).
Proof.
  intros (Hw & Hh & Hlen & Hrows & Hpix). split.
  - destruct a as [| row a]; [simpl in Hlen; lia |].
    inversion Hrows as [| ? ? Hrow _]; subst.
    destruct row as [| p row]; [simpl in Hrow; lia |].
    simpl. discriminate.
  - apply Forall_concat. unfold slice. apply Forall_map.
    eapply Forall_impl; [| exact Hpix]. intros row Hr. simpl.
    apply Forall_map. eapply Forall_impl; [| exact Hr].
    intros p (H0 & H1 & H2). now destruct c.
Qed.

Lemma raster_ok_map2d (f : pixel Z -> pixel Z) (a : ndarray Z)
    (sz : Dimensions) :
  raster_ok a sz -> (forall p, pixel_ok p -> pixel_ok (f p)) ->
  raster_ok (map2d f a) sz.
Proof.
  intros (Hw & Hh & Hlen & Hrows & Hpix) Hf.
  split; [exact Hw |]. split; [exact Hh |]. unfold map2d.
  split; [now rewrite length_map |]. split.
  - apply Forall_map. eapply Forall_impl; [| exact Hrows].
    intros row Hr. simpl. now rewrite length_map.
  - apply Forall_map. eapply Forall_impl; [| exact Hpix].
    intros row Hr. simpl. apply Forall_map.
    eapply Forall_impl; [| exact Hr]. exact Hf.
Qed.

Lemma fromarray_size (a : ndarray Z) (sz : Dimensions) :
  raster_ok a sz -> size (fromarray a) = sz.
Proof.
  intros (Hw & Hh & Hlen & Hrows & _). unfold fromarray, shape. simpl.
  destruct a as [| row a]; [simpl in Hlen; lia |].
  inversion Hrows as [| ? ? Hrow _]; subst. cbn [hd].
  rewrite Hlen, Hrow, !Z2Nat.id by lia. now destruct sz.
Qed.

Lemma as_rgb_ok (convert : Image -> string -> Image) (image : Image) :
  converts_to_rgb convert -> valid_image image ->
  raster_ok (pixels (as_rgb convert image)) (size image)
  /\ size (as_rgb convert image) = size image.
Proof.
  intros Hc (Hw & Hh & Hrgb). unfold as_rgb.
  destruct (String.eqb (mode image) "RGB") eqn:E; simpl.
  - apply String.eqb_eq in E. split; [now apply Hrgb | reflexivity].
  - destruct (Hc image Hw Hh) as [[_ Hr] Hs]. rewrite Hs in Hr. now split.
Qed.

Lemma as_rgb_id (convert : Image -> string -> Image) (image : Image) :
  mode image = "RGB"%string -> as_rgb convert image = image.
Proof. intros H. unfold as_rgb. now rewrite H. Qed.

(** ** The filters, pixel by pixel *)

Lemma slice_astype (c : channel) (a : ndarray Z) :
  slice c (astype_float64 a) = map2d of_Z (slice c a).
Proof.
  unfold astype_float64. rewrite slice_map2d.
  change (slice c a) with (map2d (chan c) a).
  rewrite (map2d_map2d of_Z (chan c)).
  apply map2d_ext_in. intros row p _ _. apply chan_map_pixel.
Qed.

(** One turn of the loop of auto levels on a raster whose channel [c]
    still holds the converted input. *)
Lemma auto_levels_step_eq (a : ndarray Z) (F : pixel Z -> pixel float)
    (c : channel) :
  samples_ok (slice c a) ->
  (forall p, chan c (F p) = of_Z (chan c p)) ->
  auto_levels_step (astype_float64 a) (Some (map2d F a)) c =
  Some (map2d
          (fun p => set_chan c
                      (levels_float (zmin2d (slice c a)) (zmax2d (slice c a))
                                    (chan c p))
                      (F p)) a).
Proof.
  intros Hs HF. unfold auto_levels_step.
  rewrite slice_astype, np_min_of_Z, np_max_of_Z by assumption.
  unfold levels_float.
  destruct (ltb (of_Z (zmin2d (slice c a))) (of_Z (zmax2d (slice c a)))).
  - f_equal. rewrite !map2d_map2d.
    rewrite <- (assign_map2d c
             (fun p => div (mul (sub (of_Z (chan c p))
                                     (of_Z (zmin2d (slice c a))))
                                c255)
                           (sub (of_Z (zmax2d (slice c a)))
                                (of_Z (zmin2d (slice c a)))))).
    f_equal.
    exact (map2d_map2d
             (fun x => div (mul (sub (of_Z x) (of_Z (zmin2d (slice c a))))
                                c255)
                           (sub (of_Z (zmax2d (slice c a)))
                                (of_Z (zmin2d (slice c a)))))
             (chan c) a).
  - f_equal. apply map2d_ext_in. intros row p _ _.
    rewrite <- HF. symmetry. apply set_chan_chan.
Qed.

(** Auto levels sends every pixel through [levels_sample], each channel
    with its own extremes. *)
Lemma apply_auto_levels_float (convert : Image -> string -> Image)
    (image : Image) (sz : Dimensions) :
  raster_ok (pixels (as_rgb convert image)) sz ->
  apply_auto_levels convert image =
  Some (fromarray
          (map2d (levels_pixel levels_sample (pixels (as_rgb convert image)))
                 (pixels (as_rgb convert image)))).
Proof.
  intros Hr. unfold apply_auto_levels, np_array.
  set (a := pixels (as_rgb convert image)) in *.
  unfold range3, astype_float64 at 2. cbn [fold_left].
  rewrite auto_levels_step_eq;
    [| now apply (raster_samples_ok a sz)
     | intros p; apply chan_map_pixel].
  rewrite auto_levels_step_eq;
    [| now apply (raster_samples_ok a sz)
     | intros [[r g] b]; reflexivity].
  rewrite auto_levels_step_eq;
    [| now apply (raster_samples_ok a sz)
     | intros [[r g] b]; reflexivity].
  rewrite !map2d_map2d. do 2 f_equal.
  apply map2d_ext_in. intros row [[r g] b] _ _. reflexivity.
Qed.

(** In exact arithmetic: every pixel goes through [stretch]. *)
Lemma levels_pixel_exact (a : ndarray Z) (sz : Dimensions) :
  raster_ok a sz ->
  map2d (levels_pixel levels_sample a) a = map2d (levels_pixel stretch a) a.
Proof.
  intros Hr. apply map2d_ext_in. intros row p Hrow Hp.
  unfold levels_pixel.
  assert (H : forall c,
             levels_sample (zmin2d (slice c a)) (zmax2d (slice c a)) (chan c p)
             = stretch (zmin2d (slice c a)) (zmax2d (slice c a)) (chan c p)).
  { intros c. pose proof (raster_samples_ok a sz c Hr) as Hs.
    pose proof (In_concat_slice c a row p Hrow Hp) as Hin.
    apply levels_sample_stretch.
    - now apply zmin2d_range.
    - now apply zmax2d_range.
    - split; [now apply zmin2d_le | now apply zmax2d_ge]. }
  now rewrite !H.
Qed.

Lemma apply_auto_levels_exact (convert : Image -> string -> Image)
    (image : Image) (sz : Dimensions) :
  raster_ok (pixels (as_rgb convert image)) sz ->
  apply_auto_levels convert image =
  Some (fromarray
          (map2d (levels_pixel stretch (pixels (as_rgb convert image)))
                 (pixels (as_rgb convert image)))).
Proof.
  intros Hr. rewrite (apply_auto_levels_float convert image sz Hr).
  now rewrite (levels_pixel_exact _ sz Hr).
Qed.

(** White patch sends every pixel through [white_patch_sample], each
    channel with its own largest sample. *)
Lemma apply_white_patch_eq (convert : Image -> string -> Image)
    (image : Image) (sz : Dimensions) :
  raster_ok (pixels (as_rgb convert image)) sz ->
  apply_white_patch_white_balance convert image =
  Some (fromarray
          (map2d (white_pixel (pixels (as_rgb convert image)))
                 (pixels (as_rgb convert image)))).
Proof.
  intros Hr. unfold apply_white_patch_white_balance, np_array.
  set (a := pixels (as_rgb convert image)) in *.
  rewrite !slice_astype, !np_max_of_Z by now apply (raster_samples_ok a sz).
  unfold imul, astype_float64. rewrite !map2d_map2d. do 2 f_equal.
  apply map2d_ext_in. intros row [[r g] b] _ _. reflexivity.
Qed.

Lemma levels_pixel_ok (a : ndarray Z) (p : pixel Z) :
  pixel_ok p -> pixel_ok (levels_pixel stretch a p).
Proof.
  intros (H0 & H1 & H2). unfold levels_pixel, pixel_ok. cbn [chan].
  repeat split; now apply stretch_range.
Qed.

(** ** The filters: size, channels, second pass *)

Lemma grey_convert_ok : converts_to_rgb grey_convert.
Proof.
  intros image Hw Hh. split; [| reflexivity]. split; [reflexivity |].
  unfold grey_convert, Image_new. cbn [pixels size].
  split; [exact Hw |]. split; [exact Hh |].
  split; [apply repeat_length |]. split.
  - apply Forall_forall. intros row Hrow. apply repeat_spec in Hrow.
    subst row. apply repeat_length.
  - apply Forall_forall. intros row Hrow. apply repeat_spec in Hrow.
    subst row. apply Forall_forall. intros p Hp. apply repeat_spec in Hp.
    subst p. unfold pixel_ok, in_range. cbn [chan]. lia.
Qed.

Lemma sample_image_valid : valid_image sample_image.
Proof.
  unfold valid_image, raster_ok, sample_image. cbn [size pixels fst snd mode].
  split; [lia |]. split; [lia |]. intros _.
  split; [lia |]. split; [lia |]. split; [reflexivity |].
  split; repeat constructor; unfold in_range; cbn [chan]; lia.
Qed.

Lemma white_pixel_ok (a : ndarray Z) (p : pixel Z) :
  pixel_ok (white_pixel a p).
Proof.
  unfold white_pixel, pixel_ok, in_range, white_patch_sample, to_uint8.
  cbn [chan].
  repeat split;
    match goal with
    | |- context [?x mod 256] =>
        pose proof (Z.mod_pos_bound x 256 eq_refl); lia
    end.
Qed.

Lemma slice_levels (c : channel) (a : ndarray Z) :
  slice c (map2d (levels_pixel stretch a) a) =
  map2d (stretch (zmin2d (slice c a)) (zmax2d (slice c a))) (slice c a).
Proof.
  rewrite slice_map2d.
  change (slice c a) with (map2d (chan c) a) at 3.
  rewrite (map2d_map2d _ (chan c)).
  apply map2d_ext_in. intros row [[r g] b] _ _. now destruct c.
Qed.

Lemma stretch_full (w : Z) : in_range w -> stretch 0 255 w = w.
Proof.
  intros Hw. unfold stretch, in_range in *.
  change (0 <? 255) with true. cbv iota.
  rewrite Z.sub_0_r, Z.div_mul by lia. lia.
Qed.

Lemma stretch_stretch (lo hi v : Z) :
  stretch (stretch lo hi lo) (stretch lo hi hi) (stretch lo hi v)
  = stretch lo hi v.
Proof.
  destruct (lo <? hi) eqn:E.
  - assert (H0 : stretch lo hi lo = 0).
    { unfold stretch. rewrite E, Z.sub_diag. reflexivity. }
    assert (H1 : stretch lo hi hi = 255).
    { unfold stretch. rewrite E. apply Z.ltb_lt in E.
      rewrite Z.mul_comm, Z.div_mul by lia. reflexivity. }
    rewrite H0, H1. apply stretch_full.
    unfold stretch, in_range. rewrite E. lia.
  - unfold stretch at 2 3 4. rewrite E.
    unfold stretch. now rewrite E.
Qed.

(** C10: white patch and auto levels hand back an image of the size of
    the one they are given. *)
Theorem filters_preserve_size (convert : Image -> string -> Image)
    (image : Image) :
  converts_to_rgb convert -> valid_image image ->
  (exists out,
      apply_white_patch_white_balance convert image = Some out
      /\ size out = size image)
  /\ (exists out,
         apply_auto_levels convert image = Some out
         /\ size out = size image).
Proof.
  intros Hc Hv. destruct (as_rgb_ok convert image Hc Hv) as [Hr _].
  split.
  - eexists. split; [exact (apply_white_patch_eq convert image _ Hr) |].
    apply fromarray_size. apply raster_ok_map2d; [exact Hr |].
    intros p _. apply white_pixel_ok.
  - eexists. split; [exact (apply_auto_levels_exact convert image _ Hr) |].
    apply fromarray_size. apply raster_ok_map2d; [exact Hr |].
    apply levels_pixel_ok.
Qed.

Lemma filters_preserve_size_witness :
  converts_to_rgb grey_convert /\ valid_image sample_image
  /\ (exists out,
         apply_white_patch_white_balance grey_convert sample_image = Some out
         /\ size out = size sample_image)
  /\ (exists out,
         apply_auto_levels grey_convert sample_image = Some out
         /\ size out = size sample_image).
Proof.
  split; [exact grey_convert_ok |]. split; [exact sample_image_valid |].
  exact (filters_preserve_size grey_convert sample_image
           grey_convert_ok sample_image_valid).
Defined.

(** C4: auto levels treats each channel by itself: the channel of the
    result is the channel of the input sent, sample by sample, through
    the stretch with the extremes of that one channel,
    (v - minC) * 255 / (maxC - minC) rounded down and clipped to 0..255
    when maxC > minC, and unchanged when the channel is flat. *)
Theorem auto_levels_per_channel (convert : Image -> string -> Image)
    (image : Image) :
  converts_to_rgb convert -> valid_image image ->
  exists out,
    apply_auto_levels convert image = Some out
    /\ forall c,
         slice c (pixels out) =
         map2d (fun v =>
                  let minC :=
                    zmin2d (slice c (pixels (as_rgb convert image))) in
                  let maxC :=
                    zmax2d (slice c (pixels (as_rgb convert image))) in
                  if minC <? maxC
                  then Z.min 255 (Z.max 0 ((v - minC) * 255 / (maxC - minC)))
                  else v)
               (slice c (pixels (as_rgb convert image))).
Proof.
  intros Hc Hv. destruct (as_rgb_ok convert image Hc Hv) as [Hr _].
  eexists. split; [exact (apply_auto_levels_exact convert image _ Hr) |].
  intros c.
  replace (pixels (fromarray _))
    with (map2d (levels_pixel stretch (pixels (as_rgb convert image)))
                (pixels (as_rgb convert image)))
    by (unfold fromarray; now destruct (shape _)).
  apply slice_levels.
Qed.

Lemma auto_levels_per_channel_witness :
  converts_to_rgb grey_convert /\ valid_image sample_image
  /\ exists out,
       apply_auto_levels grey_convert sample_image = Some out
       /\ forall c,
            slice c (pixels out) =
            map2d (fun v =>
                     let minC :=
                       zmin2d (slice c (pixels (as_rgb grey_convert
                                                       sample_image))) in
                     let maxC :=
                       zmax2d (slice c (pixels (as_rgb grey_convert
                                                       sample_image))) in
                     if minC <? maxC
                     then Z.min 255
                            (Z.max 0 ((v - minC) * 255 / (maxC - minC)))
                     else v)
                  (slice c (pixels (as_rgb grey_convert sample_image))).
Proof.
  split; [exact grey_convert_ok |]. split; [exact sample_image_valid |].
  exact (auto_levels_per_channel grey_convert sample_image
           grey_convert_ok sample_image_valid).
Defined.

Lemma pixels_fromarray (a : ndarray Z) : pixels (fromarray a) = a.
Proof. unfold fromarray. now destruct (shape a). Qed.

Lemma mode_fromarray (a : ndarray Z) : mode (fromarray a) = "RGB"%string.
Proof. unfold fromarray. now destruct (shape a). Qed.

(** The stretched raster is a fixed point of the stretch. *)
Lemma levels_pixel_fixed (a : ndarray Z) (sz : Dimensions) :
  raster_ok a sz ->
  map2d (levels_pixel stretch (map2d (levels_pixel stretch a) a))
        (map2d (levels_pixel stretch a) a)
  = map2d (levels_pixel stretch a) a.
Proof.
  intros Hr. rewrite map2d_map2d. apply map2d_ext_in.
  intros row p _ _. unfold levels_pixel at 1.
  assert (H : forall c,
             stretch (zmin2d (slice c (map2d (levels_pixel stretch a) a)))
                     (zmax2d (slice c (map2d (levels_pixel stretch a) a)))
                     (chan c (levels_pixel stretch a p))
             = chan c (levels_pixel stretch a p)).
  { intros c. rewrite slice_levels.
    destruct (raster_samples_ok a sz c Hr) as [Hne _].
    rewrite zmin2d_map, zmax2d_map
      by (assumption || (intros; now apply stretch_mono)).
    replace (chan c (levels_pixel stretch a p))
      with (stretch (zmin2d (slice c a)) (zmax2d (slice c a)) (chan c p))
      by (destruct p as [[r g] b], c; reflexivity).
    apply stretch_stretch. }
  rewrite !H. now destruct (levels_pixel stretch a p) as [[r g] b].
Qed.

(** C3: a second pass of auto levels leaves the result of the first
    unchanged. *)
Theorem apply_auto_levels_idempotent (convert : Image -> string -> Image)
    (image : Image) :
  converts_to_rgb convert -> valid_image image ->
  exists out,
    apply_auto_levels convert image = Some out
    /\ apply_auto_levels convert out = Some out.
Proof.
  intros Hc Hv. destruct (as_rgb_ok convert image Hc Hv) as [Hr _].
  set (a := pixels (as_rgb convert image)) in *.
  exists (fromarray (map2d (levels_pixel stretch a) a)).
  split; [exact (apply_auto_levels_exact convert image _ Hr) |].
  assert (Hr' : raster_ok (map2d (levels_pixel stretch a) a) (size image)).
  { apply raster_ok_map2d; [exact Hr | apply levels_pixel_ok]. }
  rewrite (apply_auto_levels_exact convert _ (size image));
    rewrite as_rgb_id by apply mode_fromarray;
    rewrite pixels_fromarray; [| exact Hr'].
  now rewrite (levels_pixel_fixed a _ Hr).
Qed.

Lemma apply_auto_levels_idempotent_witness :
  converts_to_rgb grey_convert /\ valid_image sample_image
  /\ exists out,
       apply_auto_levels grey_convert sample_image = Some out
       /\ apply_auto_levels grey_convert out = Some out.
Proof.
  split; [exact grey_convert_ok |]. split; [exact sample_image_valid |].
  exact (apply_auto_levels_idempotent grey_convert sample_image
           grey_convert_ok sample_image_valid).
Defined.

(** C2, where the script falls short of it: on a grey image whose every
    sample is 25 each gain is 255 / 25, which binary64 rounds to just
    under 10.2; the product with 25 is just under 255 and the cut to 8
    bits leaves 254.  The same happens for the other values listed in
    [short_of_white], and for no other uniform value. *)
Theorem white_patch_short_of_white :
  (forall convert,
      apply_white_patch_white_balance convert (grey 25) = Some (grey 254))
  /\ white_patch_sample 25 25 = 254
  /\ forallb white_or_short bytes = true.
Proof.
  split; [| split].
  - intros convert. vm_compute. reflexivity.
  - vm_compute. reflexivity.
  - exact all_white_or_short.
Qed.

(** ** Thumbnail sizes *)

(** C7, for the scale the scripts use: with the factor 0.2 (the default
    of [create_thumbnail] and the constant of [check_and_fix_thumbnails])
    the thumbnail of a (width, height) image, both below 2^31, is
    (floor (width / 5), floor (height / 5)): the rounding of the binary64
    product never reaches the integer part.  Here 0.2 is the double
    nearest to 1/5, and (1000, 2000) gives (200, 400). *)
Theorem thumbnail_size_default (w h : Z) :
  0 <= w < 2 ^ 31 -> 0 <= h < 2 ^ 31 ->
  thumbnail_size (w, h) c0_2 = Some (expectedThumbSize (w, h) 1 5)
  /\ expected_thumb_size (w, h) = Some (expectedThumbSize (w, h) 1 5)
  /\ c0_2 = div (of_Z 1) (of_Z 5)
  /\ thumbnail_size (1000, 2000) c0_2 = Some (200, 400).
Proof.
  intros Hw Hh.
  assert (E : thumbnail_size (w, h) c0_2
              = Some (expectedThumbSize (w, h) 1 5)).
  { unfold thumbnail_size, expectedThumbSize. cbn [fst snd].
    rewrite !int_mul_fifth by assumption. now rewrite !Z.mul_1_r. }
  split; [exact E |]. split; [exact E |]. split; reflexivity.
Qed.

Lemma thumbnail_size_default_witness :
  0 <= 1000 < 2 ^ 31 /\ 0 <= 2000 < 2 ^ 31
  /\ thumbnail_size (1000, 2000) c0_2
     = Some (expectedThumbSize (1000, 2000) 1 5)
  /\ expected_thumb_size (1000, 2000)
     = Some (expectedThumbSize (1000, 2000) 1 5)
  /\ c0_2 = div (of_Z 1) (of_Z 5)
  /\ thumbnail_size (1000, 2000) c0_2 = Some (200, 400).
Proof.
  assert (H1 : 0 <= 1000 < 2 ^ 31) by (split; [lia | reflexivity]).
  assert (H2 : 0 <= 2000 < 2 ^ 31) by (split; [lia | reflexivity]).
  split; [exact H1 |]. split; [exact H2 |].
  exact (thumbnail_size_default 1000 2000 H1 H2).
Defined.

(** C7 as worded fails for other scales.  With 0.29, the double nearest
    to 29/100, a width of 100 gives 28 where floor (100 * 29/100) is 29:
    the product is rounded to just under 29.  With 0.7, a width of 10
    gives 7 where the exact value of that double, just under 7/10,
    gives floor 6: the product is rounded up to 7. *)
Lemma thumbnail_size_not_exact :
  c0_29 = div (of_Z 29) (of_Z 100)
  /\ thumbnail_size (100, 100) c0_29 = Some (28, 28)
  /\ expectedThumbSize (100, 100) 29 100 = (29, 29)
  /\ c0_7 = div (of_Z 7) (of_Z 10)
  /\ thumbnail_size (10, 10) c0_7 = Some (7, 7)
  /\ float_fraction c0_7 = (6305039478318694, 2 ^ 53)
  /\ expectedThumbSize (10, 10) 6305039478318694 (2 ^ 53) = (6, 6).
Proof. repeat split; vm_compute; reflexivity. Qed.

(** * Further properties *)

(** ** The centering script: what counts as a reference *)

Lemma substring_append_r (s suffix : string) :
  substring (String.length s) (String.length suffix) (s ++ suffix) = suffix.
Proof.
  induction s as [| a s IH]; simpl.
  - induction suffix as [| b t IHt]; simpl; [reflexivity |].
    now rewrite IHt.
  - exact IH.
Qed.

Lemma length_append (s t : string) :
  String.length (s ++ t) = (String.length s + String.length t)%nat.
Proof. induction s as [| a s IH]; simpl; [reflexivity | now rewrite IH]. Qed.

Lemma endswith_append (s suffix : string) :
  endswith (s ++ suffix) suffix = true.
Proof.
  unfold endswith. rewrite length_append.
  replace (String.length s + String.length suffix - String.length suffix)%nat
    with (String.length s) by lia.
  rewrite substring_append_r, String.eqb_refl, andb_true_r.
  apply Nat.leb_le. lia.
Qed.

Lemma centered_name_not_reference (target_filename : string) :
  is_reference_name (centered_name target_filename) = false.
Proof.
  unfold is_reference_name, centered_name.
  rewrite endswith_append. apply andb_false_r.
Qed.

Lemma reference_sizes_app (l1 l2 : Folder) :
  reference_sizes (l1 ++ l2) = reference_sizes l1 ++ reference_sizes l2.
Proof. unfold reference_sizes. apply flat_map_app. Qed.

Lemma canvas_by_reference_sizes (photos photos' : Folder) :
  reference_sizes photos = reference_sizes photos' ->
  get_portrait_canvas_size photos = get_portrait_canvas_size photos'.
Proof.
  intros H. rewrite !get_portrait_canvas_size_eq. now rewrite H.
Qed.

(** X1: what the script writes is never read back as a reference: a
    file under the output name of any target, wherever it stands in the
    listing and whatever it holds, leaves the canvas size as it is. *)
Theorem centered_outputs_ignored (before after : Folder)
    (target_filename : string) (file : option Image) :
  get_portrait_canvas_size
    (before ++ (centered_name target_filename, file) :: after)
  = get_portrait_canvas_size (before ++ after).
Proof.
  apply canvas_by_reference_sizes.
  rewrite !reference_sizes_app. f_equal.
  unfold reference_sizes at 1. cbn [flat_map fst snd].
  now rewrite centered_name_not_reference.
Qed.

(** ** The centering script: the order of the listing *)

Lemma occurrences_Permutation (d : Dimensions) (l l' : list Dimensions) :
  Permutation l l' -> occurrences d l = occurrences d l'.
Proof.
  intros H. induction H as [| x l l' _ IH | x y l | l l' l'' _ IH1 _ IH2].
  - reflexivity.
  - rewrite !occurrences_cons. lia.
  - rewrite !occurrences_cons. lia.
  - lia.
Qed.

Lemma modal_canvas (photos : Folder) :
  reference_sizes photos <> [] ->
  exists m,
    modal_first (reference_sizes photos) m
    /\ get_portrait_canvas_size photos = Some (portrait m).
Proof.
  intros Hne. rewrite get_portrait_canvas_size_eq.
  assert (Ht : tally (reference_sizes photos) <> [])
    by (now rewrite tally_nil).
  destruct (py_max_some snd _ Ht) as [item Hitem]. rewrite Hitem.
  exists (fst item). split; [now apply py_max_tally | reflexivity].
Qed.

Lemma strict_mode_canvas (photos : Folder) (d : Dimensions) :
  strict_mode (reference_sizes photos) d ->
  get_portrait_canvas_size photos = Some (portrait d).
Proof.
  intros Hd. set (l := reference_sizes photos) in *.
  assert (Hpos : 0 < occurrences d l).
  { specialize (Hd (fst d + 1, snd d)).
    pose proof (occurrences_nonneg (fst d + 1, snd d) l).
    assert ((fst d + 1, snd d) <> d)
      by (destruct d as [w h]; simpl; intros E; inversion E; lia).
    specialize (Hd H0). lia. }
  assert (Hne : l <> []).
  { intros E. rewrite E in Hpos. unfold occurrences in Hpos.
    simpl in Hpos. lia. }
  destruct (modal_canvas photos Hne) as (m & [Hmax _] & E).
  rewrite E. f_equal. f_equal.
  destruct (dim_eqb m d) eqn:Em; [now apply dim_eqb_eq |].
  apply dim_eqb_neq in Em. specialize (Hd m Em). specialize (Hmax d).
  fold l in Hmax. lia.
Qed.

(** X2: when one size is strictly the most frequent, the order of the
    listing does not matter: every rearrangement of the folder gives the
    same canvas, the portrait form of that size. *)
Theorem canvas_order_irrelevant (photos photos' : Folder) (d : Dimensions) :
  Permutation photos photos' ->
  strict_mode (reference_sizes photos) d ->
  get_portrait_canvas_size photos = Some (portrait d)
  /\ get_portrait_canvas_size photos' = Some (portrait d).
Proof.
  intros Hp Hd. split; [now apply strict_mode_canvas |].
  apply strict_mode_canvas. intros d' Hne.
  assert (Hl : Permutation (reference_sizes photos) (reference_sizes photos'))
    by (unfold reference_sizes; now apply Permutation_flat_map).
  rewrite <- !(occurrences_Permutation _ _ _ Hl). now apply Hd.
Qed.

Lemma three_references_mode :
  strict_mode (reference_sizes three_references) (800, 600).
Proof.
  intros d' Hne.
  change (reference_sizes three_references)
    with [(800, 600); (800, 600); (600, 800)].
  rewrite !occurrences_cons.
  assert (E : dim_eqb (800, 600) d' = false)
    by (apply dim_eqb_neq; congruence).
  rewrite E, dim_eqb_refl. unfold occurrences. simpl.
  destruct (dim_eqb (600, 800) d'); lia.
Qed.

Lemma canvas_order_irrelevant_witness :
  Permutation three_references three_references_reversed
  /\ strict_mode (reference_sizes three_references) (800, 600)
  /\ get_portrait_canvas_size three_references = Some (portrait (800, 600))
  /\ get_portrait_canvas_size three_references_reversed
     = Some (portrait (800, 600)).
Proof.
  split; [apply Permutation_rev |].
  split; [exact three_references_mode |].
  exact (canvas_order_irrelevant three_references three_references_reversed
           (800, 600) (Permutation_rev three_references)
           three_references_mode).
Defined.

(** ** The centering script: where the source ends up *)

Lemma getpixel_inside (a : ndarray Z) (sz : Dimensions) (x y : Z) :
  has_shape a sz -> 0 <= x < fst sz -> 0 <= y < snd sz ->
  exists p, getpixel a x y = Some p.
Proof.
  intros (Hw & Hh & Hlen & Hrows) Hx Hy. unfold getpixel.
  replace ((x <? 0) || (y <? 0)) with false
    by (symmetry; apply orb_false_iff; split; apply Z.ltb_ge; lia).
  destruct (nth_error a (Z.to_nat y)) as [row |] eqn:Er.
  - assert (Hrow : List.length row = Z.to_nat (fst sz)).
    { rewrite Forall_forall in Hrows. apply Hrows.
      eapply nth_error_In; eauto. }
    destruct (nth_error row (Z.to_nat x)) as [p |] eqn:Ep; [eauto |].
    apply nth_error_None in Ep. lia.
  - apply nth_error_None in Er. lia.
Qed.

Lemma getpixel_outside (a : ndarray Z) (sz : Dimensions) (x y : Z) :
  has_shape a sz -> ~ (0 <= x < fst sz /\ 0 <= y < snd sz) ->
  getpixel a x y = None.
Proof.
  intros (Hw & Hh & Hlen & Hrows) Hout. unfold getpixel.
  destruct ((x <? 0) || (y <? 0)) eqn:E; [reflexivity |].
  apply orb_false_iff in E. destruct E as [Ex Ey].
  apply Z.ltb_ge in Ex, Ey.
  destruct (nth_error a (Z.to_nat y)) as [row |] eqn:Er; [| reflexivity].
  assert (Hrow : List.length row = Z.to_nat (fst sz)).
  { rewrite Forall_forall in Hrows. apply Hrows.
    eapply nth_error_In; eauto. }
  assert (Hy : (Z.to_nat y < List.length a)%nat)
    by (apply nth_error_Some; congruence).
  apply nth_error_None. lia.
Qed.

(** X3: a source that fits the canvas is shown whole and centred: every
    pixel of the source is on the canvas, moved by the offsets; the
    canvas is white everywhere else; and the margins on opposite sides
    differ by at most one pixel. *)
Theorem fitting_source_is_centred (photos : Folder) (target_filename : string)
    (canvas_size : Dimensions) (src : Image) :
  find_file photos target_filename = Some (Some src) ->
  has_shape (pixels src) (size src) ->
  fst (size src) <= fst canvas_size -> snd (size src) <= snd canvas_size ->
  exists canvas x0 y0,
    center_image_on_canvas photos target_filename canvas_size
    = Returns (Some (centered_name target_filename, canvas))
    /\ center_offset canvas_size (size src) = (x0, y0)
    /\ (0 <= x0 /\ 0 <= fst canvas_size - fst (size src) - x0 - x0 <= 1)
    /\ (0 <= y0 /\ 0 <= snd canvas_size - snd (size src) - y0 - y0 <= 1)
    /\ (forall i j,
           0 <= i < fst (size src) -> 0 <= j < snd (size src) ->
           getpixel (pixels canvas) (x0 + i) (y0 + j)
           = getpixel (pixels src) i j)
    /\ (forall x y,
           0 <= x < fst canvas_size -> 0 <= y < snd canvas_size ->
           ~ (x0 <= x < x0 + fst (size src)
              /\ y0 <= y < y0 + snd (size src)) ->
           getpixel (pixels canvas) x y = Some white).
Proof.
  intros Hfind Hshape Hw Hh.
  unfold center_image_on_canvas. rewrite Hfind.
  destruct canvas_size as [cw ch]. destruct (size src) as [sw sh] eqn:Es.
  cbn [fst snd] in *.
  pose proof Hshape as (Hsw & Hsh & _).  cbn [fst snd] in Hsw, Hsh.
  set (x0 := (cw - sw) / 2). set (y0 := (ch - sh) / 2).
  assert (Hx0 : 0 <= x0 /\ 0 <= cw - sw - x0 - x0 <= 1)
    by (unfold x0; Z.div_mod_to_equations; lia).
  assert (Hy0 : 0 <= y0 /\ 0 <= ch - sh - y0 - y0 <= 1)
    by (unfold y0; Z.div_mod_to_equations; lia).
  eexists _, x0, y0. split; [reflexivity |].
  split; [reflexivity |]. split; [exact Hx0 |]. split; [exact Hy0 |].
  unfold center_offset. fold x0 y0. split.
  - intros i j Hi Hj. rewrite getpixel_paste, getpixel_new by lia.
    replace (x0 + i - x0) with i by lia.
    replace (y0 + j - y0) with j by lia.
    destruct (getpixel_inside (pixels src) (sw, sh) i j Hshape Hi Hj)
      as [p Ep].
    now rewrite Ep.
  - intros x y Hx Hy Hout. rewrite getpixel_paste, getpixel_new by lia.
    rewrite (getpixel_outside (pixels src) (sw, sh)); [reflexivity | exact Hshape |].
    cbn [fst snd]. lia.
Qed.

Lemma small_source_shape : has_shape (pixels small_source) (size small_source).
Proof.
  unfold has_shape, small_source. cbn [pixels size fst snd].
  split; [lia |]. split; [lia |]. split; [reflexivity |].
  repeat constructor.
Qed.

Lemma fitting_source_is_centred_witness :
  find_file roomy_folder "s.jpg" = Some (Some small_source)
  /\ has_shape (pixels small_source) (size small_source)
  /\ fst (size small_source) <= fst (4, 4)
  /\ snd (size small_source) <= snd (4, 4)
  /\ exists canvas x0 y0,
       center_image_on_canvas roomy_folder "s.jpg" (4, 4)
       = Returns (Some (centered_name "s.jpg", canvas))
       /\ center_offset (4, 4) (size small_source) = (x0, y0)
       /\ (0 <= x0 /\ 0 <= fst (4, 4) - fst (size small_source) - x0 - x0 <= 1)
       /\ (0 <= y0 /\ 0 <= snd (4, 4) - snd (size small_source) - y0 - y0 <= 1)
       /\ (forall i j,
              0 <= i < fst (size small_source) ->
              0 <= j < snd (size small_source) ->
              getpixel (pixels canvas) (x0 + i) (y0 + j)
              = getpixel (pixels small_source) i j)
       /\ (forall x y,
              0 <= x < fst (4, 4) -> 0 <= y < snd (4, 4) ->
              ~ (x0 <= x < x0 + fst (size small_source)
                 /\ y0 <= y < y0 + snd (size small_source)) ->
              getpixel (pixels canvas) x y = Some white).
Proof.
  split; [reflexivity |]. split; [exact small_source_shape |].
  split; [simpl; lia |]. split; [simpl; lia |].
  apply (fitting_source_is_centred roomy_folder "s.jpg" (4, 4) small_source
           eq_refl small_source_shape); simpl; lia.
Defined.

Lemma length_mapi_from {A B : Type} (f : Z -> A -> B) (l : list A) (i : Z) :
  List.length (mapi_from f i l) = List.length l.
Proof.
  revert i. induction l as [| x l IH]; intros i; simpl; [reflexivity |].
  now rewrite IH.
Qed.

Lemma In_mapi_from {A B : Type} (f : Z -> A -> B) (l : list A) (i : Z)
    (y : B) :
  In y (mapi_from f i l) -> exists j x, In x l /\ y = f j x.
Proof.
  revert i. induction l as [| x l IH]; intros i; simpl; [tauto |].
  intros [<- | H]; [eauto |].
  destruct (IH _ H) as (j & x' & Hin & ->). eauto.
Qed.

Lemma paste_shape (canvas src : Image) (box : Z * Z) (sz : Dimensions) :
  has_shape (pixels canvas) sz -> has_shape (pixels (paste canvas src box)) sz.
Proof.
  intros (Hw & Hh & Hlen & Hrows). destruct box as [x0 y0].
  unfold paste. cbn [pixels].
  split; [exact Hw |]. split; [exact Hh |].
  split; [now rewrite length_mapi_from |].
  apply Forall_forall. intros row Hrow.
  apply In_mapi_from in Hrow. destruct Hrow as (j & r & Hin & ->).
  rewrite length_mapi_from. rewrite Forall_forall in Hrows. now apply Hrows.
Qed.

Lemma Image_new_shape (sz : Dimensions) (c : pixel Z) :
  0 <= fst sz -> 0 <= snd sz -> has_shape (pixels (Image_new sz c)) sz.
Proof.
  intros Hw Hh. unfold Image_new. cbn [pixels].
  split; [exact Hw |]. split; [exact Hh |].
  split; [apply repeat_length |].
  apply Forall_forall. intros row Hrow. apply repeat_spec in Hrow.
  subst row. apply repeat_length.
Qed.

(** Two rasters of one shape with the same pixels are the same. *)
Lemma raster_ext (a b : ndarray Z) (sz : Dimensions) :
  has_shape a sz -> has_shape b sz ->
  (forall x y, 0 <= x < fst sz -> 0 <= y < snd sz ->
               getpixel a x y = getpixel b x y) ->
  a = b.
Proof.
  intros (Hw & Hh & Hla & Hra) (_ & _ & Hlb & Hrb) Hpix.
  rewrite Forall_forall in Hra, Hrb.
  apply nth_error_ext. intros n.
  destruct (nth_error a n) as [ra |] eqn:Ea.
  - assert (Hn : (n < List.length a)%nat)
      by (apply nth_error_Some; congruence).
    destruct (nth_error b n) as [rb |] eqn:Eb;
      [| apply nth_error_None in Eb; lia].
    f_equal. apply nth_error_ext. intros k.
    assert (Hlra : List.length ra = Z.to_nat (fst sz))
      by (apply Hra; eapply nth_error_In; eauto).
    assert (Hlrb : List.length rb = Z.to_nat (fst sz))
      by (apply Hrb; eapply nth_error_In; eauto).
    destruct (Nat.lt_ge_cases k (Z.to_nat (fst sz))) as [Hk | Hk].
    + specialize (Hpix (Z.of_nat k) (Z.of_nat n)).
      unfold getpixel in Hpix.
      replace ((Z.of_nat k <? 0) || (Z.of_nat n <? 0)) with false in Hpix
        by (symmetry; apply orb_false_iff; split; apply Z.ltb_ge; lia).
      rewrite !Nat2Z.id, Ea, Eb in Hpix. apply Hpix; lia.
    + transitivity (@None (pixel Z)); [| symmetry];
        apply nth_error_None; lia.
  - assert (Hn : (List.length a <= n)%nat) by now apply nth_error_None.
    symmetry. apply nth_error_None. lia.
Qed.

(** X4: centring a source on a canvas of its own size copies it: the
    raster written is the raster of the source. *)
Theorem same_size_source_copied (photos : Folder) (target_filename : string)
    (src : Image) :
  find_file photos target_filename = Some (Some src) ->
  has_shape (pixels src) (size src) ->
  center_image_on_canvas photos target_filename (size src)
  = Returns (Some (centered_name target_filename,
                   {| mode := "RGB"; size := size src;
                      pixels := pixels src |})).
Proof.
  intros Hfind Hshape. unfold center_image_on_canvas. rewrite Hfind.
  do 3 f_equal. fold (centered_name target_filename). f_equal.
  pose proof Hshape as (Hw & Hh & _).
  assert (E : center_offset (size src) (size src) = (0, 0)).
  { unfold center_offset. destruct (size src) as [w h].
    now rewrite !Z.sub_diag. }
  rewrite E. unfold paste at 1. cbn [mode size Image_new]. f_equal.
  apply (raster_ext _ _ (size src)).
  - apply (paste_shape _ src (0, 0)). now apply Image_new_shape.
  - exact Hshape.
  - intros x y Hx Hy.
    change (mapi_from _ 0 (pixels (Image_new (size src) white)))
      with (pixels (paste (Image_new (size src) white) src (0, 0))).
    rewrite getpixel_paste.
    destruct (size src) as [w h] eqn:Es. cbn [fst snd] in *.
    rewrite getpixel_new by lia. rewrite !Z.sub_0_r.
    destruct (getpixel_inside (pixels src) (w, h) x y Hshape Hx Hy)
      as [p Ep].
    now rewrite Ep.
Qed.

Lemma same_size_source_copied_witness :
  find_file roomy_folder "s.jpg" = Some (Some small_source)
  /\ has_shape (pixels small_source) (size small_source)
  /\ center_image_on_canvas roomy_folder "s.jpg" (size small_source)
     = Returns (Some (centered_name "s.jpg",
                      {| mode := "RGB"; size := size small_source;
                         pixels := pixels small_source |})).
Proof.
  split; [reflexivity |]. split; [exact small_source_shape |].
  exact (same_size_source_copied roomy_folder "s.jpg" small_source
           eq_refl small_source_shape).
Defined.

(** ** The centering script: how a run ends *)



Lemma find_file_In (photos : Folder) (name : string) (file : option Image) :
  find_file photos name = Some file -> In (name, file) photos.
Proof.
  induction photos as [| [n f] photos IH]; simpl; [discriminate |].
  destruct (String.eqb n name) eqn:E.
  - apply String.eqb_eq in E. intros H. injection H as ->. subst. now left.
  - intros H. right. now apply IH.
Qed.





(** ** Auto levels: the range it fills and what it leaves alone *)

Lemma stretch_lo (lo hi : Z) : lo < hi -> stretch lo hi lo = 0.
Proof.
  intros H. unfold stretch. rewrite (proj2 (Z.ltb_lt lo hi) H).
  now rewrite Z.sub_diag.
Qed.

Lemma stretch_hi (lo hi : Z) : lo < hi -> stretch lo hi hi = 255.
Proof.
  intros H. unfold stretch. rewrite (proj2 (Z.ltb_lt lo hi) H).
  rewrite Z.mul_comm, Z.div_mul by lia. reflexivity.
Qed.

Lemma stretch_flat (lo hi v : Z) : hi <= lo -> stretch lo hi v = v.
Proof.
  intros H. unfold stretch. now rewrite (proj2 (Z.ltb_ge lo hi) H).
Qed.

Lemma map2d_id {A : Type} (f : A -> A) (a : list (list A)) :
  (forall row x, In row a -> In x row -> f x = x) -> map2d f a = a.
Proof.
  intros H. unfold map2d.
  rewrite <- (map_id a) at 2. apply map_ext_in. intros row Hrow.
  rewrite <- (map_id row) at 2. apply map_ext_in. intros x Hx.
  now apply (H row).
Qed.

(** X7: auto levels fills the range: in the result every channel that
    was not flat has smallest sample 0 and largest sample 255, and a
    flat channel is the channel of the input. *)
Theorem auto_levels_full_range (convert : Image -> string -> Image)
    (image : Image) :
  converts_to_rgb convert -> valid_image image ->
  exists out,
    apply_auto_levels convert image = Some out
    /\ forall c,
         (zmin2d (slice c (pixels (as_rgb convert image)))
          < zmax2d (slice c (pixels (as_rgb convert image))) ->
          zmin2d (slice c (pixels out)) = 0
          /\ zmax2d (slice c (pixels out)) = 255)
         /\ (zmax2d (slice c (pixels (as_rgb convert image)))
             <= zmin2d (slice c (pixels (as_rgb convert image))) ->
             slice c (pixels out) = slice c (pixels (as_rgb convert image))).
Proof.
  intros Hc Hv. destruct (as_rgb_ok convert image Hc Hv) as [Hr _].
  set (a := pixels (as_rgb convert image)) in *.
  eexists. split; [exact (apply_auto_levels_exact convert image _ Hr) |].
  intros c. rewrite pixels_fromarray. fold a. rewrite slice_levels.
  destruct (raster_samples_ok a _ c Hr) as [Hne _].
  split.
  - intros Hlt.
    rewrite zmin2d_map, zmax2d_map
      by (assumption || (intros; now apply stretch_mono)).
    split; [now apply stretch_lo | now apply stretch_hi].
  - intros Hflat. apply map2d_id. intros row v _ _.
    now apply stretch_flat.
Qed.

Lemma auto_levels_full_range_witness :
  converts_to_rgb grey_convert /\ valid_image sample_image
  /\ exists out,
       apply_auto_levels grey_convert sample_image = Some out
       /\ forall c,
            (zmin2d (slice c (pixels (as_rgb grey_convert sample_image)))
             < zmax2d (slice c (pixels (as_rgb grey_convert sample_image))) ->
             zmin2d (slice c (pixels out)) = 0
             /\ zmax2d (slice c (pixels out)) = 255)
            /\ (zmax2d (slice c (pixels (as_rgb grey_convert sample_image)))
                <= zmin2d (slice c (pixels (as_rgb grey_convert
                                                   sample_image))) ->
                slice c (pixels out)
                = slice c (pixels (as_rgb grey_convert sample_image))).
Proof.
  split; [exact grey_convert_ok |]. split; [exact sample_image_valid |].
  exact (auto_levels_full_range grey_convert sample_image
           grey_convert_ok sample_image_valid).
Defined.

Lemma fromarray_self (image : Image) :
  mode image = "RGB"%string -> raster_ok (pixels image) (size image) ->
  fromarray (pixels image) = image.
Proof.
  intros Hm Hr. pose proof (fromarray_size _ _ Hr) as Hs.
  pose proof (pixels_fromarray (pixels image)) as Hp.
  pose proof (mode_fromarray (pixels image)) as Hmo.
  destruct (fromarray (pixels image)) as [m s p].
  destruct image as [m' s' p']. cbn [mode size pixels] in *.
  now subst.
Qed.

Lemma levelled_fixed (a : ndarray Z) (sz : Dimensions) :
  raster_ok a sz -> levelled a -> map2d (levels_pixel stretch a) a = a.
Proof.
  intros Hr Hl. apply map2d_id. intros row p Hrow Hp.
  assert (Hpok : pixel_ok p).
  { destruct Hr as (_ & _ & _ & _ & Hpix).
    rewrite Forall_forall in Hpix. specialize (Hpix row Hrow).
    rewrite Forall_forall in Hpix. now apply Hpix. }
  assert (H : forall c,
             stretch (zmin2d (slice c a)) (zmax2d (slice c a)) (chan c p)
             = chan c p).
  { intros c. destruct (Hl c) as [E | [E0 E255]].
    - apply stretch_flat. lia.
    - rewrite E0, E255. apply stretch_full.
      destruct Hpok as (H0 & H1 & H2). now destruct c. }
  unfold levels_pixel. rewrite !H. now destruct p as [[r g] b].
Qed.

(** X8: auto levels hands back unchanged an RGB image each of whose
    channels is flat or already spans 0..255. *)
Theorem auto_levels_keeps_levelled (convert : Image -> string -> Image)
    (image : Image) :
  mode image = "RGB"%string -> valid_image image ->
  levelled (pixels image) ->
  apply_auto_levels convert image = Some image.
Proof.
  intros Hm Hv Hl.
  assert (Hr : raster_ok (pixels image) (size image))
    by (destruct Hv as (_ & _ & H); now apply H).
  rewrite (apply_auto_levels_exact convert image (size image));
    rewrite as_rgb_id by exact Hm; [| exact Hr].
  rewrite (levelled_fixed _ _ Hr Hl). f_equal.
  now apply fromarray_self.
Qed.

Lemma settled_image_valid : valid_image settled_image.
Proof.
  unfold valid_image, raster_ok, settled_image.
  cbn [size pixels fst snd mode].
  split; [lia |]. split; [lia |]. intros _.
  split; [lia |]. split; [lia |]. split; [reflexivity |].
  split; repeat constructor; unfold in_range; cbn [chan]; lia.
Qed.

Lemma settled_image_levelled : levelled (pixels settled_image).
Proof. intros c. destruct c; vm_compute; auto. Qed.

Lemma auto_levels_keeps_levelled_witness :
  mode settled_image = "RGB"%string /\ valid_image settled_image
  /\ levelled (pixels settled_image)
  /\ apply_auto_levels grey_convert settled_image = Some settled_image.
Proof.
  split; [reflexivity |]. split; [exact settled_image_valid |].
  split; [exact settled_image_levelled |].
  exact (auto_levels_keeps_levelled grey_convert settled_image eq_refl
           settled_image_valid settled_image_levelled).
Defined.

(** ** White patch next to exact arithmetic *)

Lemma gain_floats_eq : gain_floats = map (fun m => (m, gain m)) bytes.
Proof. vm_compute. reflexivity. Qed.

Lemma all_near_floor :
  forallb (fun mg => forallb (near_floor mg) byte_floats) gain_floats = true.
Proof. vm_compute. reflexivity. Qed.

Lemma all_kept_by_white_patch : forallb kept_by_white_patch bytes = true.
Proof. vm_compute. reflexivity. Qed.

(** For a channel maximum [maxC] and a sample not above it, the result
    is the exact quotient rounded down or one less, and not below the
    sample. *)
Lemma white_patch_sample_near (maxC v : Z) :
  0 < maxC <= 255 -> 0 <= v <= maxC ->
  v <= white_patch_sample maxC v
  /\ v * 255 / maxC - 1 <= white_patch_sample maxC v <= v * 255 / maxC.
Proof.
  intros HM Hv. pose proof all_near_floor as H.
  rewrite forallb_forall in H.
  assert (Hin : In (maxC, gain maxC) gain_floats).
  { rewrite gain_floats_eq. apply (in_map (fun m => (m, gain m))).
    apply bytes_In. unfold in_range. lia. }
  specialize (H _ Hin). cbv beta in H. rewrite forallb_forall in H.
  assert (Hv' : in_range v) by (unfold in_range; lia).
  specialize (H _ (byte_floats_In v Hv')).
  unfold near_floor in H. cbn [fst snd] in H.
  rewrite (proj2 (Z.ltb_lt 0 maxC)) in H by lia.
  rewrite (proj2 (Z.leb_le v maxC)) in H by lia.
  cbn [andb] in H.
  apply andb_true_iff in H. destruct H as [H H3].
  apply andb_true_iff in H. destruct H as [H1 H2].
  apply Z.leb_le in H1, H2, H3. unfold white_patch_sample. lia.
Qed.

Lemma white_patch_sample_kept (v : Z) :
  in_range v ->
  white_patch_sample 255 v = v /\ white_patch_sample 0 v = v.
Proof.
  intros Hv. pose proof all_kept_by_white_patch as H.
  rewrite forallb_forall in H. specialize (H _ (bytes_In v Hv)).
  unfold kept_by_white_patch in H. apply andb_true_iff in H.
  destruct H as [H1 H2]. apply Z.eqb_eq in H1, H2. now split.
Qed.

Lemma white_patch_sample_range (maxC v : Z) :
  in_range (white_patch_sample maxC v).
Proof.
  unfold white_patch_sample, to_uint8, in_range.
  match goal with
  | |- context [?x mod 256] =>
      pose proof (Z.mod_pos_bound x 256 eq_refl); lia
  end.
Qed.

Lemma white_patch_sample_mono (maxC v w : Z) :
  0 < maxC <= 255 -> 0 <= v -> v <= w -> w <= maxC ->
  white_patch_sample maxC v <= white_patch_sample maxC w.
Proof.
  intros HM H0 Hvw Hw.
  destruct (Z.eq_dec v w) as [-> | Hne]; [lia |].
  destruct (white_patch_sample_near maxC v HM) as (_ & _ & Hv); [lia |].
  destruct (white_patch_sample_near maxC w HM) as (_ & Hw' & _); [lia |].
  assert (v * 255 / maxC + 1 <= w * 255 / maxC).
  { replace (v * 255 / maxC + 1) with ((v * 255 + 1 * maxC) / maxC)
      by (rewrite Z.div_add by lia; reflexivity).
    apply Z.div_le_mono; lia. }
  lia.
Qed.

Lemma slice_white (c : channel) (a : ndarray Z) :
  slice c (map2d (white_pixel a) a) =
  map2d (white_patch_sample (zmax2d (slice c a))) (slice c a).
Proof.
  rewrite slice_map2d.
  change (slice c a) with (map2d (chan c) a) at 2.
  rewrite (map2d_map2d _ (chan c)).
  apply map2d_ext_in. intros row [[r g] b] _ _. now destruct c.
Qed.

Lemma concat_map2d {A B : Type} (f : A -> B) (s : list (list A)) :
  List.concat (map2d f s) = map f (List.concat s).
Proof. unfold map2d. now rewrite concat_map. Qed.

(** X9: white patch hands back unchanged an RGB image each of whose
    channels is black or already reaches 255. *)
Theorem white_patch_keeps_balanced (convert : Image -> string -> Image)
    (image : Image) :
  mode image = "RGB"%string -> valid_image image ->
  balanced (pixels image) ->
  apply_white_patch_white_balance convert image = Some image.
Proof.
  intros Hm Hv Hb.
  assert (Hr : raster_ok (pixels image) (size image))
    by (destruct Hv as (_ & _ & H); now apply H).
  rewrite (apply_white_patch_eq convert image (size image));
    rewrite as_rgb_id by exact Hm; [| exact Hr].
  f_equal. rewrite map2d_id; [now apply fromarray_self |].
  intros row p Hrow Hp.
  assert (Hpok : pixel_ok p).
  { destruct Hr as (_ & _ & _ & _ & Hpix).
    rewrite Forall_forall in Hpix. specialize (Hpix row Hrow).
    rewrite Forall_forall in Hpix. now apply Hpix. }
  assert (H : forall c,
             white_patch_sample (zmax2d (slice c (pixels image))) (chan c p)
             = chan c p).
  { intros c.
    assert (Hc : in_range (chan c p))
      by (destruct Hpok as (H0 & H1 & H2); now destruct c).
    destruct (white_patch_sample_kept _ Hc) as [E255 E0].
    destruct (Hb c) as [-> | ->]; assumption. }
  unfold white_pixel. rewrite !H. now destruct p as [[r g] b].
Qed.

Lemma settled_image_balanced : balanced (pixels settled_image).
Proof. intros c. destruct c; vm_compute; auto. Qed.

Lemma white_patch_keeps_balanced_witness :
  mode settled_image = "RGB"%string /\ valid_image settled_image
  /\ balanced (pixels settled_image)
  /\ apply_white_patch_white_balance grey_convert settled_image
     = Some settled_image.
Proof.
  split; [reflexivity |]. split; [exact settled_image_valid |].
  split; [exact settled_image_balanced |].
  exact (white_patch_keeps_balanced grey_convert settled_image eq_refl
           settled_image_valid settled_image_balanced).
Defined.

(** X10: white patch against exact arithmetic.  Every sample [v] of a
    channel whose largest sample is [maxC > 0] becomes the exact
    quotient [v * 255 / maxC] rounded down, or one less than that, and
    never a value below [v]; a black channel stays black. *)
Theorem white_patch_near_exact (convert : Image -> string -> Image)
    (image : Image) :
  converts_to_rgb convert -> valid_image image ->
  exists out,
    apply_white_patch_white_balance convert image = Some out
    /\ forall c,
         slice c (pixels out)
         = map2d (white_patch_sample
                    (zmax2d (slice c (pixels (as_rgb convert image)))))
                 (slice c (pixels (as_rgb convert image)))
         /\ forall v,
              In v (List.concat (slice c (pixels (as_rgb convert image)))) ->
              let maxC := zmax2d (slice c (pixels (as_rgb convert image))) in
              (0 < maxC ->
               v <= white_patch_sample maxC v
               /\ v * 255 / maxC - 1 <= white_patch_sample maxC v
                  <= v * 255 / maxC)
              /\ (maxC = 0 -> white_patch_sample maxC v = 0).
Proof.
  intros Hc Hv. destruct (as_rgb_ok convert image Hc Hv) as [Hr _].
  set (a := pixels (as_rgb convert image)) in *.
  eexists. split; [exact (apply_white_patch_eq convert image _ Hr) |].
  intros c. rewrite pixels_fromarray. fold a.
  split; [apply slice_white |].
  intros v Hin maxC.
  pose proof (raster_samples_ok a _ c Hr) as Hs.
  pose proof (zmax2d_range _ Hs) as HM. fold maxC in HM.
  pose proof (zmax2d_ge _ _ Hin) as Hle. fold maxC in Hle.
  assert (H0 : in_range v).
  { destruct Hs as [_ Hall]. rewrite Forall_forall in Hall.
    now apply Hall. }
  unfold in_range in *. split.
  - intros Hpos. apply white_patch_sample_near; lia.
  - intros E. rewrite E. replace v with 0 by lia.
    apply (white_patch_sample_kept 0). unfold in_range. lia.
Qed.

Lemma white_patch_near_exact_witness :
  converts_to_rgb grey_convert /\ valid_image sample_image
  /\ exists out,
       apply_white_patch_white_balance grey_convert sample_image = Some out
       /\ forall c,
            slice c (pixels out)
            = map2d (white_patch_sample
                       (zmax2d (slice c (pixels (as_rgb grey_convert
                                                        sample_image)))))
                    (slice c (pixels (as_rgb grey_convert sample_image)))
            /\ forall v,
                 In v (List.concat
                         (slice c (pixels (as_rgb grey_convert
                                                  sample_image)))) ->
                 let maxC :=
                   zmax2d (slice c (pixels (as_rgb grey_convert
                                                   sample_image))) in
                 (0 < maxC ->
                  v <= white_patch_sample maxC v
                  /\ v * 255 / maxC - 1 <= white_patch_sample maxC v
                     <= v * 255 / maxC)
                 /\ (maxC = 0 -> white_patch_sample maxC v = 0).
Proof.
  split; [exact grey_convert_ok |]. split; [exact sample_image_valid |].
  exact (white_patch_near_exact grey_convert sample_image
           grey_convert_ok sample_image_valid).
Defined.

Lemma zmax2d_In (s : list (list Z)) :
  List.concat s <> [] -> In (zmax2d s) (List.concat s).
Proof.
  intros Hne. unfold zmax2d.
  destruct (List.concat s) as [| x rest]; [congruence |].
  apply fold_max_In.
Qed.

(** X11: after white patch the largest sample of a channel that was not
    black is 254 or 255, a black channel is still black, and the order
    of the samples of a channel is kept: of two samples of the input
    channel, the larger one does not come out smaller. *)
Theorem white_patch_channel_maximum (convert : Image -> string -> Image)
    (image : Image) :
  converts_to_rgb convert -> valid_image image ->
  exists out,
    apply_white_patch_white_balance convert image = Some out
    /\ forall c,
         let s := slice c (pixels (as_rgb convert image)) in
         slice c (pixels out) = map2d (white_patch_sample (zmax2d s)) s
         /\ (0 < zmax2d s -> 254 <= zmax2d (slice c (pixels out)) <= 255)
         /\ (zmax2d s = 0 -> zmax2d (slice c (pixels out)) = 0)
         /\ forall v w,
              In v (List.concat s) -> In w (List.concat s) -> v <= w ->
              white_patch_sample (zmax2d s) v
              <= white_patch_sample (zmax2d s) w.
Proof.
  intros Hc Hv. destruct (as_rgb_ok convert image Hc Hv) as [Hr _].
  set (a := pixels (as_rgb convert image)) in *.
  eexists. split; [exact (apply_white_patch_eq convert image _ Hr) |].
  intros c s. rewrite pixels_fromarray. fold a. rewrite slice_white.
  fold s. split; [reflexivity |].
  pose proof (raster_samples_ok a _ c Hr) as Hs. fold s in Hs.
  pose proof (zmax2d_range _ Hs) as HM.
  destruct Hs as [Hne Hall]. rewrite Forall_forall in Hall.
  assert (Hne' : List.concat (map2d (white_patch_sample (zmax2d s)) s) <> []).
  { rewrite concat_map2d. destruct (List.concat s); [congruence |].
    discriminate. }
  assert (Hout : forall x,
             In x (List.concat (map2d (white_patch_sample (zmax2d s)) s)) ->
             exists v, In v (List.concat s)
                       /\ x = white_patch_sample (zmax2d s) v).
  { intros x Hx. rewrite concat_map2d in Hx. apply in_map_iff in Hx.
    destruct Hx as (v & <- & Hin). now exists v. }
  unfold in_range in HM. split; [| split].
  - intros Hpos. split.
    + assert (Hin : In (white_patch_sample (zmax2d s) (zmax2d s))
                       (List.concat
                          (map2d (white_patch_sample (zmax2d s)) s))).
      { rewrite concat_map2d. apply in_map. now apply zmax2d_In. }
      apply zmax2d_ge in Hin.
      destruct (white_patch_sample_near (zmax2d s) (zmax2d s))
        as (_ & Hlo & _); [lia | lia |].
      rewrite Z.mul_comm, Z.div_mul in Hlo by lia. lia.
    + destruct (Hout _ (zmax2d_In _ Hne')) as (v & _ & ->).
      apply white_patch_sample_range.
  - intros E. destruct (Hout _ (zmax2d_In _ Hne')) as (v & Hin & ->).
    pose proof (zmax2d_ge _ _ Hin) as Hle.
    pose proof (Hall _ Hin) as Hv0. unfold in_range in Hv0.
    rewrite E. replace v with 0 by lia.
    apply (white_patch_sample_kept 0). unfold in_range. lia.
  - intros v w Hinv Hinw Hvw.
    pose proof (zmax2d_ge _ _ Hinw) as Hle.
    pose proof (Hall _ Hinv) as Hv0. unfold in_range in Hv0.
    destruct (Z.eq_dec (zmax2d s) 0) as [E | Hnz].
    + replace w with v by lia. lia.
    + apply white_patch_sample_mono; lia.
Qed.

Lemma white_patch_channel_maximum_witness :
  converts_to_rgb grey_convert /\ valid_image sample_image
  /\ exists out,
       apply_white_patch_white_balance grey_convert sample_image = Some out
       /\ forall c,
            let s := slice c (pixels (as_rgb grey_convert sample_image)) in
            slice c (pixels out) = map2d (white_patch_sample (zmax2d s)) s
            /\ (0 < zmax2d s -> 254 <= zmax2d (slice c (pixels out)) <= 255)
            /\ (zmax2d s = 0 -> zmax2d (slice c (pixels out)) = 0)
            /\ forall v w,
                 In v (List.concat s) -> In w (List.concat s) -> v <= w ->
                 white_patch_sample (zmax2d s) v
                 <= white_patch_sample (zmax2d s) w.
Proof.
  split; [exact grey_convert_ok |]. split; [exact sample_image_valid |].
  exact (white_patch_channel_maximum grey_convert sample_image
           grey_convert_ok sample_image_valid).
Defined.

(** ** The quarter turn and [create_thumbnail] *)

Lemma size_transpose (img : Image) :
  size (transpose_rotate_270 img) = (snd (size img), fst (size img)).
Proof. unfold transpose_rotate_270. now destruct (size img). Qed.

Lemma mode_transpose (img : Image) :
  mode (transpose_rotate_270 img) = mode img.
Proof. unfold transpose_rotate_270. now destruct (size img). Qed.

Lemma pixels_transpose (img : Image) :
  pixels (transpose_rotate_270 img)
  = map (fun x => rev (column x (pixels img)))
        (seq 0 (Z.to_nat (fst (size img)))).
Proof. unfold transpose_rotate_270. now destruct (size img). Qed.

(** Once turned, an image is taller than wide and is not turned again. *)
Lemma rotation_settles (img : Image) :
  needs_rotation img = true ->
  needs_rotation (transpose_rotate_270 img) = false
  /\ fst (size (transpose_rotate_270 img))
     < snd (size (transpose_rotate_270 img)).
Proof.
  unfold needs_rotation. rewrite size_transpose.
  destruct (size img) as [w h]. cbn [fst snd].
  rewrite andb_true_iff, Z.eqb_eq, Z.gtb_gt. intros [-> Hh].
  split; [| lia]. apply andb_false_iff. left. apply Z.eqb_neq. lia.
Qed.

Lemma transpose_raster_ok (img : Image) :
  raster_ok (pixels img) (size img) ->
  raster_ok (pixels (transpose_rotate_270 img))
            (size (transpose_rotate_270 img)).
Proof.
  rewrite size_transpose, pixels_transpose.
  destruct (size img) as [w h]. cbn [fst snd].
  intros (Hw & Hh & Hlen & Hrows & Hpix). cbn [fst snd] in *.
  split; [exact Hh |]. split; [exact Hw |].
  split; [now rewrite length_map, length_seq |].
  rewrite Forall_forall in Hrows. rewrite Forall_forall in Hpix.
  split; apply Forall_forall; intros r Hr; apply in_map_iff in Hr;
    destruct Hr as (x & <- & Hx); apply in_seq in Hx.
  - unfold column. now rewrite length_rev, length_map.
  - apply Forall_forall. intros p Hp. apply in_rev in Hp.
    unfold column in Hp. apply in_map_iff in Hp.
    destruct Hp as (row & <- & Hrow).
    specialize (Hpix row Hrow). rewrite Forall_forall in Hpix.
    apply Hpix. apply nth_In. pose proof (Hrows row Hrow) as Hl.
    cbv beta in Hl. unfold pixel in *. lia.
Qed.

(** The two filters one after the other, on an RGB raster. *)
Lemma filters_after (convert : Image -> string -> Image) (img : Image) :
  rgb_ok img ->
  exists out,
    match apply_white_patch_white_balance convert img with
    | Some img' => apply_auto_levels convert img'
    | None => None
    end = Some out
    /\ rgb_ok out /\ size out = size img.
Proof.
  intros [Hm Hr].
  assert (Hr' : raster_ok (pixels (as_rgb convert img)) (size img))
    by now rewrite as_rgb_id.
  rewrite (apply_white_patch_eq convert img _ Hr').
  rewrite as_rgb_id by exact Hm.
  set (a1 := map2d (white_pixel (pixels img)) (pixels img)).
  assert (H1 : raster_ok a1 (size img)).
  { apply raster_ok_map2d; [exact Hr |]. intros p _. apply white_pixel_ok. }
  assert (Hr1 : raster_ok (pixels (as_rgb convert (fromarray a1))) (size img)).
  { rewrite as_rgb_id by apply mode_fromarray. now rewrite pixels_fromarray. }
  rewrite (apply_auto_levels_exact convert (fromarray a1) _ Hr1).
  rewrite as_rgb_id by apply mode_fromarray. rewrite pixels_fromarray.
  eexists. split; [reflexivity |].
  assert (H2 : raster_ok (map2d (levels_pixel stretch a1) a1) (size img)).
  { apply raster_ok_map2d; [exact H1 |]. intros p Hp.
    now apply levels_pixel_ok. }
  pose proof (fromarray_size _ _ H2) as Hs.
  split; [| exact Hs]. split; [apply mode_fromarray |].
  now rewrite Hs, pixels_fromarray.
Qed.

Lemma as_rgb_rgb_ok (convert : Image -> string -> Image) (img : Image) :
  converts_to_rgb convert -> valid_image img ->
  rgb_ok (as_rgb convert img) /\ size (as_rgb convert img) = size img.
Proof.
  intros Hc Hv. destruct (as_rgb_ok convert img Hc Hv) as [Hr Hs].
  split; [| exact Hs]. split; [| now rewrite Hs].
  unfold as_rgb. destruct (String.eqb (mode img) "RGB") eqn:E; simpl.
  - now apply String.eqb_eq.
  - destruct Hv as (Hw & Hh & _). now destruct (Hc img Hw Hh) as [[Hm _] _].
Qed.

(** What [process] hands over: an RGB image that needs no rotation, of
    the size of the input or of that size turned. *)
Lemma process_ok (convert : Image -> string -> Image) (img : Image)
    (apply_white_balance : bool) :
  converts_to_rgb convert -> valid_image img ->
  exists out,
    process convert img apply_white_balance
    = Some (out, needs_rotation (as_rgb convert img) || apply_white_balance)
    /\ rgb_ok out
    /\ needs_rotation out = false
    /\ size out = (if needs_rotation (as_rgb convert img)
                   then (snd (size img), fst (size img))
                   else size img).
Proof.
  intros Hc Hv. destruct (as_rgb_rgb_ok convert img Hc Hv) as [Hrgb Hs].
  unfold process.
  set (img0 := as_rgb convert img) in *.
  set (img1 := if needs_rotation img0 then transpose_rotate_270 img0
               else img0).
  assert (H1 : rgb_ok img1 /\ needs_rotation img1 = false
               /\ size img1 = (if needs_rotation img0
                               then (snd (size img), fst (size img))
                               else size img)).
  { unfold img1. destruct (needs_rotation img0) eqn:E.
    - split; [| split].
      + destruct Hrgb as [Hm Hr]. split.
        * now rewrite mode_transpose.
        * now apply transpose_raster_ok.
      + now apply rotation_settles.
      + now rewrite size_transpose, Hs.
    - auto. }
  destruct H1 as (Hok1 & Hn1 & Hs1).
  replace (if needs_rotation img0 then (transpose_rotate_270 img0, true)
           else (img0, false))
    with (img1, needs_rotation img0)
    by (unfold img1; now destruct (needs_rotation img0)).
  destruct apply_white_balance.
  - destruct (filters_after convert img1 Hok1) as (out & E & Hok & Hso).
    exists out. rewrite orb_true_r.
    split.
    + destruct (apply_white_patch_white_balance convert img1);
        [| discriminate]. now rewrite E.
    + split; [exact Hok |]. split.
      * unfold needs_rotation in *. now rewrite Hso.
      * now rewrite Hso.
  - exists img1. rewrite orb_false_r. auto.
Qed.


Lemma sample_image_small :
  fst (size sample_image) < 2 ^ 31 /\ snd (size sample_image) < 2 ^ 31.
Proof. split; reflexivity. Qed.



(** X13: an image with a side shorter than 5 pixels.  The size asked of
    [resize] then has a zero in it; with a [resize] that refuses such a
    size, [create_thumbnail] reports [False, 0, 0] and writes no
    thumbnail, yet by then it has written the processed image over the
    original whenever the image was turned or white balance was asked
    for. *)
Theorem create_thumbnail_partial_failure
    (convert : Image -> string -> Image)
    (resize : Image -> Dimensions -> option Image)
    (save : string -> Image -> bool)
    (dir : Folder) (input_path output_path : string)
    (apply_white_balance : bool) (img : Image) :
  converts_to_rgb convert ->
  (forall i sz, fst sz = 0 \/ snd sz = 0 -> resize i sz = None) ->
  (forall path i, save path i = true) ->
  Image_open dir input_path = Some img ->
  valid_image img ->
  fst (size img) < 2 ^ 31 -> snd (size img) < 2 ^ 31 ->
  fst (size img) < 5 \/ snd (size img) < 5 ->
  exists out,
    create_thumbnail convert resize save dir input_path output_path c0_2
                     apply_white_balance
    = {| success := false; new_width := 0; new_height := 0;
         rewritten :=
           if needs_rotation (as_rgb convert img) || apply_white_balance
           then Some out else None;
         thumbnail := None |}
    /\ thumbnail_size (size out) c0_2
       = Some (fst (size out) / 5, snd (size out) / 5)
    /\ (fst (size out) / 5 = 0 \/ snd (size out) / 5 = 0)
    /\ rgb_ok out
    /\ size out = (if needs_rotation (as_rgb convert img)
                   then (snd (size img), fst (size img))
                   else size img).
Proof.
  intros Hc Hresize Hsave Hopen Hv Hw Hh Htiny.
  destruct (process_ok convert img apply_white_balance Hc Hv)
    as (out & Hp & Hok & Hn & Hs).
  assert (Hb : (0 <= fst (size out) < 2 ^ 31 /\ 0 <= snd (size out) < 2 ^ 31)
               /\ (fst (size out) < 5 \/ snd (size out) < 5)).
  { destruct Hv as (Hw0 & Hh0 & _). rewrite Hs.
    destruct (needs_rotation (as_rgb convert img)); cbn [fst snd]; lia. }
  destruct Hb as [[Hbw Hbh] Hsmall].
  assert (Ht : thumbnail_size (size out) c0_2
               = Some (fst (size out) / 5, snd (size out) / 5)).
  { unfold thumbnail_size. destruct (size out) as [w h]. cbn [fst snd] in *.
    now rewrite !int_mul_fifth by assumption. }
  assert (Hz : fst (size out) / 5 = 0 \/ snd (size out) / 5 = 0).
  { destruct Hsmall; [left | right]; apply Z.div_small; lia. }
  exists out. split.
  - unfold create_thumbnail. rewrite Hopen, Hp, Hsave. cbn [negb].
    rewrite andb_false_r, Ht, (Hresize out) by exact Hz. reflexivity.
  - auto.
Qed.

Lemma strict_resize_refuses (i : Image) (sz : Dimensions) :
  fst sz = 0 \/ snd sz = 0 -> strict_resize i sz = None.
Proof.
  intros H. unfold strict_resize.
  destruct H as [-> | ->]; [reflexivity |]. now rewrite orb_true_r.
Qed.

Lemma create_thumbnail_partial_failure_witness :
  converts_to_rgb grey_convert
  /\ (forall i sz, fst sz = 0 \/ snd sz = 0 -> strict_resize i sz = None)
  /\ (forall path i, always_saves path i = true)
  /\ Image_open one_photo "a.jpg" = Some sample_image
  /\ valid_image sample_image
  /\ (fst (size sample_image) < 5 \/ snd (size sample_image) < 5)
  /\ exists out,
       create_thumbnail grey_convert strict_resize always_saves one_photo
                        "a.jpg" "thumb/a.jpg" c0_2 true
       = {| success := false; new_width := 0; new_height := 0;
            rewritten :=
              if needs_rotation (as_rgb grey_convert sample_image) || true
              then Some out else None;
            thumbnail := None |}
       /\ thumbnail_size (size out) c0_2
          = Some (fst (size out) / 5, snd (size out) / 5)
       /\ (fst (size out) / 5 = 0 \/ snd (size out) / 5 = 0)
       /\ rgb_ok out
       /\ size out = (if needs_rotation (as_rgb grey_convert sample_image)
                      then (snd (size sample_image), fst (size sample_image))
                      else size sample_image).
Proof.
  split; [exact grey_convert_ok |].
  split; [exact strict_resize_refuses |].
  split; [reflexivity |]. split; [reflexivity |].
  split; [exact sample_image_valid |].
  split; [left; reflexivity |].
  exact (create_thumbnail_partial_failure grey_convert strict_resize
           always_saves one_photo "a.jpg" "thumb/a.jpg" true sample_image
           grey_convert_ok strict_resize_refuses (fun path i => eq_refl)
           eq_refl sample_image_valid
           (proj1 sample_image_small) (proj2 sample_image_small)
           (or_introl eq_refl)).
Defined.

(** ** The run over the folder *)

Lemma count_cons (test : string -> bool) (x : string) (l : list string) :
  count test (x :: l) = Z.b2z (test x) + count test l.
Proof.
  unfold count. simpl. destruct (test x); simpl List.length; simpl Z.b2z; lia.
Qed.






Lemma Image_open_In (dir : Folder) (name : string) (img : Image) :
  Image_open dir name = Some img -> In (name, Some img) dir.
Proof.
  unfold Image_open. destruct (find_file dir name) as [[i |] |] eqn:E;
    try discriminate.
  intros H. injection H as ->. now apply find_file_In.
Qed.

Lemma expected_bounded (photos : Folder) (name : string) (img : Image) :
  sizes_bounded photos -> Image_open photos name = Some img ->
  expected_thumb_size (size img)
  = Some (fst (size img) / 5, snd (size img) / 5).
Proof.
  intros Hb Ho. destruct (Hb _ _ (Image_open_In _ _ _ Ho)) as [Hw Hh].
  unfold expected_thumb_size. destruct (size img) as [w h].
  cbn [fst snd] in *. now rewrite !int_mul_fifth by assumption.
Qed.


(** One turn of the loop, by the class of its file. *)
Lemma check_image_eq (photos thumbs : Folder) (c : counters)
    (calls : list (string * bool)) (f : string) :
  sizes_bounded photos ->
  exists c',
    check_image photos thumbs (c, calls) f
    = Returns (c', calls
                   ++ (if wants_thumbnail photos thumbs f
                       then [(f, negb (path_exists thumbs f))] else []))
    /\ processed c' = processed c + Z.b2z (decodes photos f)
    /\ rotated c' = rotated c + Z.b2z (turned photos f)
    /\ created c' = created c + Z.b2z (newcomer photos thumbs f)
    /\ fixed c' = fixed c + Z.b2z (misfit photos thumbs f).
Proof.
  intros Hb. unfold check_image.
  destruct (Image_open photos f) as [img |] eqn:Ho.
  - pose proof (expected_bounded _ _ _ Hb Ho) as He.
    unfold wants_thumbnail, decodes, turned, newcomer, misfit, upright,
      good_thumb, get_image_size.
    rewrite Ho, He.
    destruct (needs_rotation img); cbn [negb andb].
    + eexists. split; [reflexivity |]. cbn [processed rotated created fixed].
      cbn [Z.b2z]. repeat split; lia.
    + unfold path_exists, Image_open.
      destruct (find_file thumbs f) as [[t |] |]; cbn [negb andb].
      * destruct (thumb_size_ok (size t) _); cbn [negb].
        -- eexists. split; [now rewrite app_nil_r |].
           cbn [processed rotated created fixed Z.b2z]. repeat split; lia.
        -- eexists. split; [reflexivity |].
           cbn [processed rotated created fixed Z.b2z]. repeat split; lia.
      * eexists. split; [reflexivity |].
        cbn [processed rotated created fixed Z.b2z]. repeat split; lia.
      * eexists. split; [reflexivity |].
        cbn [processed rotated created fixed Z.b2z]. repeat split; lia.
  - exists c. unfold wants_thumbnail, decodes, turned, newcomer, misfit,
      upright. rewrite Ho. cbn [andb Z.b2z]. rewrite app_nil_r.
    repeat split; lia.
Qed.

(** The whole loop: each counter grows by the number of files of its
    class, and the calls are those for the files that want a thumbnail,
    in the order of the loop. *)
Lemma check_loop_eq (photos thumbs : Folder) (files : list string)
    (c : counters) (calls : list (string * bool)) :
  sizes_bounded photos ->
  exists c',
    check_loop photos thumbs files (c, calls)
    = Returns (c', calls
                   ++ map (fun f => (f, negb (path_exists thumbs f)))
                          (filter (wants_thumbnail photos thumbs) files))
    /\ processed c' = processed c + count (decodes photos) files
    /\ rotated c' = rotated c + count (turned photos) files
    /\ created c' = created c + count (newcomer photos thumbs) files
    /\ fixed c' = fixed c + count (misfit photos thumbs) files.
Proof.
  intros Hb. revert c calls.
  induction files as [| f files IH]; intros c calls.
  - exists c. simpl. rewrite app_nil_r. unfold count. simpl.
    repeat split; lia.
  - destruct (check_image_eq photos thumbs c calls f Hb)
      as (c1 & E1 & Hp1 & Hr1 & Hc1 & Hf1).
    destruct (IH c1 (calls ++ (if wants_thumbnail photos thumbs f
                               then [(f, negb (path_exists thumbs f))]
                               else [])))
      as (c2 & E2 & Hp2 & Hr2 & Hc2 & Hf2).
    exists c2. cbn [check_loop]. rewrite E1, E2. rewrite !count_cons.
    split; [| repeat split; lia].
    f_equal. f_equal. rewrite <- app_assoc. f_equal. simpl filter.
    now destruct (wants_thumbnail photos thumbs f).
Qed.



Lemma run_photos_bounded : sizes_bounded run_photos.
Proof.
  intros name img H. unfold run_photos in H. cbn [In] in H.
  repeat (destruct H as [H | H];
          [try discriminate H; injection H as _ <-;
           cbn [blank Image_new wide_photo size fst snd]; lia |]).
  contradiction.
Qed.






(** The calls of a run and their flags. *)
Lemma run_calls_shape (photos thumbs : Folder) :
  sizes_bounded photos ->
  exists c n calls,
    check_and_fix_thumbnails (Some photos) thumbs
    = Returns (Some (c, n, calls))
    /\ forall f wb,
         In (f, wb) calls ->
         wants_thumbnail photos thumbs f = true
         /\ wb = negb (path_exists thumbs f).
Proof.
  intros Hb. unfold check_and_fix_thumbnails.
  destruct (check_loop_eq photos thumbs (sorted (original_images photos))
              {| processed := 0; created := 0; fixed := 0; rotated := 0 |}
              [] Hb) as (c & E & _).
  rewrite E. cbn [app].
  exists c, (already_correct c). eexists. split; [reflexivity |].
  intros f wb Hin. apply in_map_iff in Hin.
  destruct Hin as (f' & Heq & Hin). injection Heq as -> ->.
  apply filter_In in Hin. now destruct Hin.
Qed.

Lemma needs_rotation_size (a b : Image) :
  size a = size b -> needs_rotation a = needs_rotation b.
Proof. intros H. unfold needs_rotation. now rewrite H. Qed.

(** X17: originals that are kept.  For an upright image that already
    has a thumbnail, a run asks for no white balance, and the call it
    may make for the file, whatever [resize] and [save] do, writes
    nothing over the original. *)
Theorem settled_original_untouched (convert : Image -> string -> Image)
    (resize : Image -> Dimensions -> option Image)
    (save : string -> Image -> bool)
    (photos thumbs : Folder) (f output_path : string) (img : Image) :
  converts_to_rgb convert ->
  sizes_bounded photos ->
  Image_open photos f = Some img ->
  valid_image img ->
  needs_rotation img = false ->
  path_exists thumbs f = true ->
  exists c n calls,
    check_and_fix_thumbnails (Some photos) thumbs
    = Returns (Some (c, n, calls))
    /\ ~ In (f, true) calls
    /\ rewritten (create_thumbnail convert resize save photos f output_path
                                   c0_2 false)
       = None.
Proof.
  intros Hc Hb Ho Hv Hn Hex.
  destruct (run_calls_shape photos thumbs Hb) as (c & n & calls & E & Hcalls).
  exists c, n, calls. split; [exact E |]. split.
  - intros Hin. apply Hcalls in Hin. rewrite Hex in Hin.
    destruct Hin as [_ Hin]. discriminate.
  - destruct (process_ok convert img false Hc Hv)
      as (out & Hp & _ & _ & _).
    destruct (as_rgb_rgb_ok convert img Hc Hv) as [_ Hs].
    rewrite (needs_rotation_size _ _ Hs), Hn in Hp. cbn [orb] in Hp.
    unfold create_thumbnail. rewrite Ho, Hp. cbn [andb].
    destruct (thumbnail_size (size out) c0_2) as [[nw nh] |];
      [| reflexivity].
    destruct (resize out (nw, nh)) as [t |]; [| reflexivity].
    now destruct (save output_path t).
Qed.

Lemma settled_original_untouched_witness :
  converts_to_rgb grey_convert
  /\ sizes_bounded run_photos
  /\ Image_open run_photos "bad.jpg" = Some (blank 10 20)
  /\ valid_image (blank 10 20)
  /\ needs_rotation (blank 10 20) = false
  /\ path_exists run_thumbs "bad.jpg" = true
  /\ exists c n calls,
       check_and_fix_thumbnails (Some run_photos) run_thumbs
       = Returns (Some (c, n, calls))
       /\ ~ In ("bad.jpg"%string, true) calls
       /\ rewritten (create_thumbnail grey_convert strict_resize always_saves
                                      run_photos "bad.jpg" "thumb/bad.jpg"
                                      c0_2 false)
          = None.
Proof.
  assert (Hv : valid_image (blank 10 20)).
  { destruct (grey_convert_ok (blank 10 20)) as [[_ Hr] _];
      [reflexivity | reflexivity |].
    split; [reflexivity |]. split; [reflexivity |]. intros _.
    unfold blank, Image_new. cbn [pixels size].
    split; [reflexivity |]. split; [reflexivity |].
    split; [apply repeat_length |]. split.
    - apply Forall_forall. intros row Hrow. apply repeat_spec in Hrow.
      subst row. apply repeat_length.
    - apply Forall_forall. intros row Hrow. apply repeat_spec in Hrow.
      subst row. apply Forall_forall. intros p Hp. apply repeat_spec in Hp.
      subst p. unfold pixel_ok, in_range, white. cbn [chan]. lia. }
  split; [exact grey_convert_ok |]. split; [exact run_photos_bounded |].
  split; [reflexivity |]. split; [exact Hv |].
  split; [reflexivity |]. split; [reflexivity |].
  exact (settled_original_untouched grey_convert strict_resize always_saves
           run_photos run_thumbs "bad.jpg" "thumb/bad.jpg" (blank 10 20)
           grey_convert_ok run_photos_bounded eq_refl Hv eq_refl eq_refl).
Defined.
